(** * neo-clash: the Tunnel (rule matching, configuration reload, dispatch)
      and the log-stream handler of the hub.

    A shallow embedding of [tunnel/tunnel.go] and of the hub's [logsHandler],
    with the properties of the design document stated and settled on it.

    Go values are modelled as follows.
    - [string] is a byte string (Rocq's [string], one [ascii] per byte).
    - [map[string]C.Proxy] is a [gmap string Proxy]; [m[k]] with the
      comma-ok form is [m !! k].
    - an interface value that may be [nil] is an [option].
    - [(v, error)] results are sums, [inl v] for a nil error.
    - the packages [adapters], [rules], [constant] and [observable] are
      used through what the tunnel calls of them: an interface ([Class])
      the development is parametric in. *)

From Stdlib Require Import ZArith Ascii String List.
From stdpp Require Import base option list gmap strings.

Open Scope string_scope.
Open Scope list_scope.
Open Scope Z_scope.

(** ** The Go standard library functions the tunnel calls *)

Module Go.

(** [strings.Split(s, sep)] for a one-byte separator (the tunnel only ever
    splits on [","]): the fields between the separators, in order; a string
    without separator is its own single field, the empty string included. *)
Fixpoint Split (s : string) (sep : ascii) : list string :=
  match s with
  | EmptyString => [EmptyString]
  | String c rest =>
      if Ascii.eqb c sep then EmptyString :: Split rest sep
      else match Split rest sep with
           | f :: fs => String c f :: fs
           | [] => [String c EmptyString]
           end
  end.

Definition bytes (l : list N) : list ascii := map ascii_of_N l.

(** The UTF-8 encodings of the runes for which [unicode.IsSpace] holds:
    TAB, LF, VT, FF, CR, SPACE, U+0085, U+00A0, U+1680, U+2000..U+200A,
    U+2028, U+2029, U+202F, U+205F and U+3000. *)
Definition space_runes : list (list ascii) :=
  map bytes
    [ [9]; [10]; [11]; [12]; [13]; [32];
      [194; 133]; [194; 160];
      [225; 154; 128];
      [226; 128; 128]; [226; 128; 129]; [226; 128; 130]; [226; 128; 131];
      [226; 128; 132]; [226; 128; 133]; [226; 128; 134]; [226; 128; 135];
      [226; 128; 136]; [226; 128; 137]; [226; 128; 138];
      [226; 128; 168]; [226; 128; 169]; [226; 128; 175];
      [226; 129; 159];
      [227; 128; 128] ]%N.

Fixpoint strip_prefix (p l : list ascii) : option (list ascii) :=
  match p, l with
  | [], _ => Some l
  | x :: p', y :: l' => if Ascii.eqb x y then strip_prefix p' l' else None
  | _ :: _, [] => None
  end.

Fixpoint strip_any (ps : list (list ascii)) (l : list ascii)
  : option (list ascii) :=
  match ps with
  | [] => None
  | p :: ps' =>
      match strip_prefix p l with
      | Some l' => Some l'
      | None => strip_any ps' l
      end
  end.

(** Drop leading runes taken from [ps]; every rune has at least one byte, so
    [n = length l] rounds are enough. *)
Fixpoint trim_front (ps : list (list ascii)) (n : nat) (l : list ascii)
  : list ascii :=
  match n with
  | O => l
  | S n' =>
      match strip_any ps l with
      | Some l' => trim_front ps n' l'
      | None => l
      end
  end.

Definition TrimLeftSpace (l : list ascii) : list ascii :=
  trim_front space_runes (length l) l.

(** Trailing runes are the leading runes of the reversed bytes, each
    encoding read backwards. *)
Definition TrimRightSpace (l : list ascii) : list ascii :=
  rev (trim_front (map (@rev ascii) space_runes) (length l) (rev l)).

(** [strings.TrimSpace]: leading white space is removed first, then
    trailing white space of what is left. *)
Definition TrimSpace (s : string) : string :=
  string_of_list_ascii
    (TrimRightSpace (TrimLeftSpace (list_ascii_of_string s))).

Definition digit (c : ascii) : option Z :=
  let n := Z.of_N (N_of_ascii c) in
  if (48 <=? n) && (n <=? 57) then Some (n - 48) else None.

(** What [strconv.ParseUint] makes of a string of digits, read left to
    right: a byte that is no digit is a syntax error; a value that leaves
    [uint64] is a range error, reported at the digit where it happens,
    before the bytes after it are looked at. *)
Inductive scanned : Type :=
| SyntaxError
| RangeError
| Value (n : Z).

Definition maxUint64 : Z := 2 ^ 64 - 1.

Fixpoint scan (n : Z) (l : list ascii) : scanned :=
  match l with
  | [] => Value n
  | c :: l' =>
      match digit c with
      | None => SyntaxError
      | Some d =>
          if n >=? maxUint64 / 10 + 1 then RangeError
          else if 10 * n + d >? maxUint64 then RangeError
          else scan (10 * n + d) l'
      end
  end.

Definition maxInt64 : Z := 2 ^ 63 - 1.
Definition minInt64 : Z := - 2 ^ 63.

(** [strconv.Atoi] on a 64-bit platform, its error dropped as the tunnel
    drops it: an optional sign and at least one decimal digit, nothing
    else; a syntax error gives 0, a value out of range is clamped to the
    nearest [int64]. *)
Definition Atoi (s : string) : Z :=
  let l := list_ascii_of_string s in
  let '(neg, ds) :=
    match l with
    | c :: l' =>
        if Ascii.eqb c "-" then (true, l')
        else if Ascii.eqb c "+" then (false, l')
        else (false, l)
    | [] => (false, l)
    end in
  match ds with
  | [] => 0
  | _ :: _ =>
      match scan 0 ds with
      | SyntaxError => 0
      | RangeError => if neg then minInt64 else maxInt64
      | Value v =>
          if neg then (if v >? 2 ^ 63 then minInt64 else - v)
          else (if v >=? 2 ^ 63 then maxInt64 else v)
      end
  end.

(** Arithmetic on [int64] wraps around. *)
Definition wrap64 (z : Z) : Z := (z + 2 ^ 63) mod 2 ^ 64 - 2 ^ 63.

(** [time.Duration(d) * time.Second], in nanoseconds. *)
Definition Seconds (d : Z) : Z := wrap64 (d * 1000000000).

End Go.

(** ** Results of fallible code *)

(** Go errors, by their message. *)
Definition error : Type := string.

(** What a piece of Go code can end in: a value, a returned [error], or a
    run-time panic (index or slice bounds out of range, a method called on
    a nil interface). *)
Inductive result (A : Type) : Type :=
| Ok (a : A)
| Err (e : error)
| Panic.
Arguments Ok {A} a.
Arguments Err {A} e.
Arguments Panic {A}.

Definition bind {A B : Type} (r : result A) (k : A -> result B) : result B :=
  match r with
  | Ok a => k a
  | Err e => Err e
  | Panic => Panic
  end.

Notation "x <- r ;; k" := (bind r (fun x => k))
  (at level 100, r at next level, right associativity).

(** A [for ... range] loop whose body can [return err]. *)
Fixpoint foldM {A B : Type} (f : A -> B -> result A) (a : A) (l : list B)
  : result A :=
  match l with
  | [] => Ok a
  | b :: l' => a' <- f a b ;; foldM f a' l'
  end.

(** [l[i]]: panics out of range. *)
Definition index {A : Type} (l : list A) (i : nat) : result A :=
  match l !! i with
  | Some x => Ok x
  | None => Panic
  end.

(** [l[lo:hi]]: panics unless [lo <= hi <= len(l)]. *)
Definition slice {A : Type} (l : list A) (lo hi : nat) : result (list A) :=
  if (lo <=? hi)%nat && (hi <=? length l)%nat
  then Ok (take (hi - lo) (drop lo l))
  else Panic.

(** ** The collaborating packages, as interfaces *)

(** Package [constant]: addresses, the traffic meter and the two ends of a
    relayed connection. *)
Class ConstantPkg : Type := {
  Addr : Type;
  Addr_String : Addr -> string;
  Traffic : Type;
  ProxyAdapter : Type;
  ServerAdapter : Type;
  ServerAdapter_Addr : ServerAdapter -> Addr
}.

(** Package [rules]: the rule variants behind [C.Rule], their constructors
    and the three methods of the interface; [RuleType_String r] is
    [r.RuleType().String()]. *)
Class RulesPkg `{ConstantPkg} : Type := {
  Rule : Type;
  NewDomainSuffix : string -> string -> Rule;
  NewDomainKeyword : string -> string -> Rule;
  NewGEOIP : string -> string -> Rule;
  NewIPCIDR : string -> string -> Rule;
  NewFinal : string -> Rule;
  IsMatch : Rule -> Addr -> bool;
  Adapter : Rule -> string;
  RuleType_String : Rule -> string
}.

(** Package [adapters]: the concrete types behind [C.Proxy]. *)
Class AdapterTypes : Type := {
  Direct : Type;
  Reject : Type;
  ShadowSocks : Type;
  URLTest : Type
}.

(** A non-nil [C.Proxy] interface value: a dynamic type and a value of it.
    The type switch on [URLTest] in [UpdateConfig] is a match on the
    constructor. *)
Inductive Proxy `{AdapterTypes} : Type :=
| PDirect (d : Direct)
| PReject (r : Reject)
| PShadowSocks (s : ShadowSocks)
| PURLTest (u : URLTest).

(** The constructors of package [adapters]; the two that validate their
    arguments can fail. The last argument of [NewURLTest] is the probe
    interval in nanoseconds. *)
Class AdaptersPkg `{ConstantPkg} `{AdapterTypes} : Type := {
  NewDirect : Traffic -> Direct;
  NewReject : Reject;
  NewShadowSocks : string -> string -> Traffic -> ShadowSocks + error;
  NewURLTest : string -> list Proxy -> string -> Z -> URLTest + error
}.

(** The configuration document ([C.GetConfig]): named sections, each an
    ordered list of keys with a name and a value. A section that the
    document lacks reads as empty. *)
Record Key : Type := { Name : string; Value : string }.

Abbreviation Config := (gmap string (list Key)).

Definition Keys (cfg : Config) (section : string) : list Key :=
  default [] (cfg !! section).

(** Log events of the tunnel ([tunnel.Log]): the level and the payload are
    the fields the hub reads; [newLog] is given the level and the message,
    here already formatted. *)
Inductive LogLevel : Type := ERROR | WARNING | INFO | DEBUG.

Record Log : Type := { Log_LogLevel : LogLevel; Payload : string }.

Definition newLog (level : LogLevel) (payload : string) : Log :=
  {| Log_LogLevel := level; Payload := payload |}.

(** ** The tunnel *)

Section TunnelModel.
Context `{C : ConstantPkg} `{!RulesPkg} `{T : AdapterTypes} `{!AdaptersPkg}.

(** The fields of [Tunnel] that hold data. The queue, the log channel,
    the observable and the lock only carry effects; these show up as
    events. *)
Record Tunnel : Type := {
  rules : list Rule;
  proxies : gmap string Proxy;
  traffic : Traffic
}.

(** What the tunnel does to the outside, in program order. *)
Inductive Event : Type :=
| EvLock
| EvUnlock
| EvRLock
| EvRUnlock
| EvClose (u : URLTest)
| EvSetProxies (m : gmap string Proxy)
| EvSetRules (l : list Rule)
| EvLog (l : Log)
| EvGenerator (p : Proxy) (a : Addr)
| EvConnect (localConn : ServerAdapter) (remoteConn : ProxyAdapter)
| EvLocalClose (localConn : ServerAdapter)
| EvRemoteClose (remoteConn : ProxyAdapter).

Definition trimArr (arr : list string) : list string :=
  map Go.TrimSpace arr.

(** *** UpdateConfig *)

Definition ssURL (cipher password server port : string) : string :=
  "ss://" +:+ cipher +:+ ":" +:+ password +:+ "@" +:+ server +:+ ":" +:+ port.

(** The body of the loop over the keys of section [Proxy]. *)
Definition parseProxy (tr : Traffic) (proxies : gmap string Proxy)
    (key : Key) : result (gmap string Proxy) :=
  let proxy := Go.Split (Value key) "," in
  if (length proxy <? 5)%nat then Ok proxies
  else
    let proxy := trimArr proxy in
    p0 <- index proxy 0 ;;
    if decide (p0 = "ss") then
      p3 <- index proxy 3 ;;
      p4 <- index proxy 4 ;;
      p1 <- index proxy 1 ;;
      p2 <- index proxy 2 ;;
      match NewShadowSocks (Name key) (ssURL p3 p4 p1 p2) tr with
      | inr err => Err err
      | inl ss => Ok (<[Name key := PShadowSocks ss]> proxies)
      end
    else Ok proxies.

(** The body of the loop over the keys of section [Rule]; the rule is the
    key's name. *)
Definition parseRule (rules : list Rule) (key : Key) : result (list Rule) :=
  let rule := Go.Split (Name key) "," in
  if (length rule <? 3)%nat then Ok rules
  else
    let rule := trimArr rule in
    r0 <- index rule 0 ;;
    if decide (r0 = "DOMAIN-SUFFIX") then
      r1 <- index rule 1 ;; r2 <- index rule 2 ;;
      Ok (rules ++ [NewDomainSuffix r1 r2])
    else if decide (r0 = "DOMAIN-KEYWORD") then
      r1 <- index rule 1 ;; r2 <- index rule 2 ;;
      Ok (rules ++ [NewDomainKeyword r1 r2])
    else if decide (r0 = "GEOIP") then
      r1 <- index rule 1 ;; r2 <- index rule 2 ;;
      Ok (rules ++ [NewGEOIP r1 r2])
    else if decide (r0 = "IP-CIDR" \/ r0 = "IP-CIDR6") then
      r1 <- index rule 1 ;; r2 <- index rule 2 ;;
      Ok (rules ++ [NewIPCIDR r1 r2])
    else if decide (r0 = "FINAL") then
      r2 <- index rule 2 ;;
      Ok (rules ++ [NewFinal r2])
    else Ok rules.

(** The inner loop of the group parser: the members that the map built so
    far knows, in the order they are named. *)
Fixpoint members (proxies : gmap string Proxy) (proxyNames : list string)
  : list Proxy :=
  match proxyNames with
  | [] => []
  | name :: rest =>
      match proxies !! name with
      | Some p => p :: members proxies rest
      | None => members proxies rest
      end
  end.

(** The body of the loop over the keys of section [Proxy Group]. *)
Definition parseGroup (proxies : gmap string Proxy) (key : Key)
  : result (gmap string Proxy) :=
  let group := Go.Split (Value key) "," in
  if (length group <? 4)%nat then Ok proxies
  else
    let group := trimArr group in
    g0 <- index group 0 ;;
    if decide (g0 = "url-test") then
      proxyNames <- slice group 1 (length group - 2) ;;
      d <- index group (length group - 1) ;;
      let delay := Go.Atoi d in
      url <- index group (length group - 2) ;;
      let ps := members proxies proxyNames in
      match NewURLTest (Name key) ps url (Go.Seconds delay) with
      | inr err => Err ("Config error: " +:+ err)
      | inl adapter => Ok (<[Name key := PURLTest adapter]> proxies)
      end
    else Ok proxies.

(** [UpdateConfig] from the three section lookups to the insertion of the
    default proxies: the new rule table and proxy table, or the error the
    function returns early with. *)
Definition compile (tr : Traffic) (cfg : Config)
  : result (list Rule * gmap string Proxy) :=
  let proxysConfig := Keys cfg "Proxy" in
  let rulesConfig := Keys cfg "Rule" in
  let groupsConfig := Keys cfg "Proxy Group" in
  proxies <- foldM (parseProxy tr) ∅ proxysConfig ;;
  rules <- foldM parseRule [] rulesConfig ;;
  proxies <- foldM parseGroup proxies groupsConfig ;;
  let proxies := <["DIRECT" := PDirect (NewDirect tr)]> proxies in
  let proxies := <["REJECT" := PReject NewReject]> proxies in
  Ok (rules, proxies).

(** The loop that stops the URL tests of the table being replaced, over
    the entries in the order [old] the [range] happens to visit them. *)
Fixpoint stopURLTests (old : list (string * Proxy)) : list Event :=
  match old with
  | [] => []
  | (_, PURLTest urlTest) :: rest => EvClose urlTest :: stopURLTests rest
  | _ :: rest => stopURLTests rest
  end.

(** [UpdateConfig]. [getConfig] is what [C.GetConfig()] returns and [old]
    the order in which this run ranges over [t.proxies] (Go leaves it
    open). The result is the tunnel afterwards, the events in program
    order, and what the caller gets: [Ok tt] is a nil error. *)
Definition UpdateConfig (getConfig : Config + error)
    (old : list (string * Proxy)) (t : Tunnel)
  : Tunnel * list Event * result unit :=
  match getConfig with
  | inr err => (t, [], Err err)
  | inl cfg =>
      match compile (traffic t) cfg with
      | Err err => (t, [], Err err)
      | Panic => (t, [], Panic)
      | Ok (rules', proxies') =>
          ({| rules := rules'; proxies := proxies'; traffic := traffic t |},
           [EvLock] ++ stopURLTests old
             ++ [EvSetProxies proxies'; EvSetRules rules'; EvUnlock],
           Ok tt)
      end
  end.

(** *** match *)

Definition matchLog (addr : Addr) (rule : Rule) : Log :=
  newLog INFO
    (Addr_String addr +:+ " match " +:+ RuleType_String rule
       +:+ " using " +:+ Adapter rule).

Definition noMatchLog (addr : Addr) : Log :=
  newLog INFO (Addr_String addr +:+ " doesn't match any rule using DIRECT").

(** The loop of [match] over the rules still to be tried, and the two
    statements after it. The proxy returned is [None] for a nil
    interface. *)
Fixpoint matchRules (t : Tunnel) (addr : Addr) (rs : list Rule)
  : list Event * option Proxy :=
  match rs with
  | [] => ([EvLog (noMatchLog addr)], proxies t !! "DIRECT")
  | rule :: rest =>
      if IsMatch rule addr then
        match proxies t !! Adapter rule with
        | Some proxy => ([EvLog (matchLog addr rule)], Some proxy)
        | None => matchRules t addr rest
        end
      else matchRules t addr rest
  end.

Definition match_ (t : Tunnel) (addr : Addr) : list Event * option Proxy :=
  let '(evs, proxy) := matchRules t addr (rules t) in
  (EvRLock :: evs ++ [EvRUnlock], proxy).

(** *** handleConn *)

(** What the network does during one [handleConn]: the outcome of
    [proxy.Generator(addr)] and whether the relay
    [localConn.Connect(remoteConn)] panics. *)
Record Network : Type := {
  Generator : Proxy -> Addr -> result ProxyAdapter;
  Connect_panics : ServerAdapter -> ProxyAdapter -> bool
}.

Inductive Exit : Type := Returned | Panicked.

(** [handleConn]. Deferred calls run, last deferred first, when the
    function returns and when it panics. Calling [Generator] on the nil
    proxy panics. *)
Definition handleConn (net : Network) (t : Tunnel)
    (localConn : ServerAdapter) : list Event * Exit :=
  let deferred := [EvLocalClose localConn] in
  let addr := ServerAdapter_Addr localConn in
  let '(evs, proxy) := match_ t addr in
  match proxy with
  | None => (evs ++ deferred, Panicked)
  | Some proxy =>
      match Generator net proxy addr with
      | Panic => (evs ++ [EvGenerator proxy addr] ++ deferred, Panicked)
      | Err err =>
          (evs ++ [EvGenerator proxy addr;
                   EvLog (newLog WARNING ("Proxy connect error: " +:+ err))]
             ++ deferred,
           Returned)
      | Ok remoteConn =>
          let deferred := EvRemoteClose remoteConn :: deferred in
          (evs ++ [EvGenerator proxy addr; EvConnect localConn remoteConn]
             ++ deferred,
           if Connect_panics net localConn remoteConn
           then Panicked else Returned)
      end
  end.

(** Events on the two legs of a connection. *)
Definition isLocalClose (e : Event) : bool :=
  match e with EvLocalClose _ => true | _ => false end.

Definition onRemote (e : Event) : bool :=
  match e with
  | EvConnect _ _ | EvRemoteClose _ => true
  | _ => false
  end.

(** *** The design's wording of match

    The design has [Match] settle on the first rule that matches the
    address, and fall back to DIRECT when that rule's adapter name is
    not in the proxy table. *)
Definition firstMatchOrDirect (t : Tunnel) (addr : Addr) : option Proxy :=
  match List.find (fun rule => IsMatch rule addr) (rules t) with
  | Some rule =>
      match proxies t !! Adapter rule with
      | Some proxy => Some proxy
      | None => proxies t !! "DIRECT"
      end
  | None => proxies t !! "DIRECT"
  end.

(** A rule [match] can settle on: it matches the address and its adapter
    name is in the proxy table. *)
Definition usable (t : Tunnel) (addr : Addr) (rule : Rule) : bool :=
  IsMatch rule addr && bool_decide (is_Some (proxies t !! Adapter rule)).

End TunnelModel.

(** ** A reference implementation of the interfaces

    Stand-ins for the packages behind the interfaces, so that the tunnel
    can be run on concrete documents and addresses. *)

Module Ref.

(** Modelled from the spec: the rule variants of package [rules] (domain
    suffix, domain keyword, GeoIP, IP-CIDR and the catch-all final rule),
    each mapped to the name of an outbound proxy. *)
Inductive rule : Type :=
| DomainSuffix (suffix adapter : string)
| DomainKeyword (keyword adapter : string)
| GEOIP (country adapter : string)
| IPCIDR (ipnet adapter : string)
| Final (adapter : string).

Fixpoint contains (n : nat) (needle hay : string) : bool :=
  String.prefix needle hay ||
  match n, hay with
  | S n', String _ hay' => contains n' needle hay'
  | _, _ => false
  end.

Definition hasSuffix (s suffix : string) : bool :=
  String.prefix (String.rev suffix) (String.rev s).

(** Modelled from the spec: [IsMatch] of package [rules]. The final rule
    always matches; a suffix rule for example.com matches www.example.com
    and not other.org. An address here is a host name without a resolved
    IP, which the two IP-based rules never match. *)
Definition isMatch (r : rule) (host : string) : bool :=
  match r with
  | DomainSuffix suffix _ =>
      hasSuffix host ("." +:+ suffix) || String.eqb host suffix
  | DomainKeyword keyword _ => contains (String.length host) keyword host
  | GEOIP _ _ => false
  | IPCIDR _ _ => false
  | Final _ => true
  end.

(** Modelled from the spec: the adapter name of a rule is the proxy name
    it was declared with. *)
Definition adapter (r : rule) : string :=
  match r with
  | DomainSuffix _ a | DomainKeyword _ a | GEOIP _ a | IPCIDR _ a
  | Final a => a
  end.

Definition ruleType (r : rule) : string :=
  match r with
  | DomainSuffix _ _ => "DomainSuffix"
  | DomainKeyword _ _ => "DomainKeyword"
  | GEOIP _ _ => "GEOIP"
  | IPCIDR _ _ => "IPCIDR"
  | Final _ => "FINAL"
  end.

Record shadowSocks : Type := { ss_name : string; ss_url : string }.

Record urlTest : Type := {
  ut_name : string;
  ut_members : list string;
  ut_url : string;
  ut_interval : Z
}.

#[export] Instance constant : ConstantPkg := {|
  Addr := string;
  Addr_String := fun a => a;
  Traffic := unit;
  ProxyAdapter := string;
  ServerAdapter := string;
  ServerAdapter_Addr := fun c => c
|}.

#[export] Instance rulesPkg : RulesPkg := {|
  Rule := rule;
  NewDomainSuffix := DomainSuffix;
  NewDomainKeyword := DomainKeyword;
  NewGEOIP := GEOIP;
  NewIPCIDR := IPCIDR;
  NewFinal := Final;
  IsMatch := isMatch;
  Adapter := adapter;
  RuleType_String := ruleType
|}.

#[export] Instance adapterTypes : AdapterTypes := {|
  Direct := unit;
  Reject := unit;
  ShadowSocks := shadowSocks;
  URLTest := urlTest
|}.

Definition proxyName (p : Proxy) : string :=
  match p with
  | PDirect _ => "DIRECT"
  | PReject _ => "REJECT"
  | PShadowSocks s => ss_name s
  | PURLTest u => ut_name u
  end.

(** Modelled from the spec: the constructors of package [adapters]. The
    two validating ones report a failure for a Shadowsocks URL without a
    cipher and for a URL test without a URL. *)
#[export] Instance adaptersPkg : AdaptersPkg := {|
  NewDirect := fun _ => tt;
  NewReject := tt;
  NewShadowSocks := fun name url _ =>
    if String.prefix "ss://:" url then inr "ss: missing cipher"
    else inl {| ss_name := name; ss_url := url |};
  NewURLTest := fun name ps url interval =>
    if String.eqb url "" then inr "missing url"
    else inl {| ut_name := name; ut_members := map proxyName ps;
                ut_url := url; ut_interval := interval |}
|}.

Definition key (name value : string) : Key :=
  {| Name := name; Value := value |}.

(** The document of the design's scenarios: one Shadowsocks proxy, one
    group, a suffix rule and a final rule (three fields each). *)
Definition sample : Config :=
  list_to_map
    [ ("Proxy", [key "PROXY1" "ss, 1.2.3.4, 8388, aes-256-gcm, pass"]);
      ("Proxy Group",
       [key "AUTO" "url-test, PROXY1, DIRECT, http://t.example/, 300"]);
      ("Rule", [key "DOMAIN-SUFFIX,example.com,PROXY1" "";
                key "FINAL,,DIRECT" ""]) ].

Definition empty : Tunnel :=
  {| rules := []; proxies := ∅; traffic := tt |}.

(** A rule section with a two-field line and a FINAL line written with
    two fields, as the design writes it. *)
Definition twoFieldFinal : Config :=
  list_to_map
    [ ("Rule", [key "DOMAIN-SUFFIX,example.com" "";
                key "FINAL,DIRECT" ""]) ].

(** The same with the FINAL line in the three fields the parser reads. *)
Definition threeFieldFinal : Config :=
  list_to_map
    [ ("Rule", [key "DOMAIN-SUFFIX,example.com" "";
                key "FINAL,,DIRECT" ""]) ].

(** A document that declares a proxy and a group under the reserved
    names. *)
Definition reservedNames : Config :=
  list_to_map
    [ ("Proxy", [key "DIRECT" "ss, 1.2.3.4, 8388, aes-256-gcm, pass"]);
      ("Proxy Group",
       [key "REJECT" "url-test, DIRECT, http://t.example/, 300"]) ].

(** A document whose second proxy the constructor refuses. *)
Definition badCipher : Config :=
  list_to_map
    [ ("Proxy", [key "PROXY1" "ss, 1.2.3.4, 8388, aes-256-gcm, pass";
                 key "PROXY2" "ss, 1.2.3.4, 8388, , pass"]);
      ("Rule", [key "FINAL,,PROXY1" ""]) ].

(** A document with malformed entries in every section. *)
Definition withMalformed : Config :=
  list_to_map
    [ ("Proxy", [key "BROKEN" "ss, 1.2.3.4, 8388";
                 key "PROXY1" "ss, 1.2.3.4, 8388, aes-256-gcm, pass"]);
      ("Proxy Group",
       [key "SHORT" "url-test, http://t.example/, 300";
        key "AUTO" "url-test, PROXY1, DIRECT, http://t.example/, 300"]);
      ("Rule", [key "DOMAIN-SUFFIX,example.com" "";
                key "PORT,80,PROXY1" "";
                key "DOMAIN-SUFFIX,example.com,PROXY1" "";
                key "FINAL,,DIRECT" ""]) ].

Definition proxy1 : Proxy :=
  PShadowSocks {| ss_name := "PROXY1";
                  ss_url := "ss://aes-256-gcm:pass@1.2.3.4:8388" |}.

Definition auto : urlTest :=
  {| ut_name := "AUTO"; ut_members := ["PROXY1"];
     ut_url := "http://t.example/"; ut_interval := 300000000000 |}.

(** The tunnel after loading [sample]. *)
Definition loaded : Tunnel :=
  {| rules := [DomainSuffix "example.com" "PROXY1"; Final "DIRECT"];
     proxies := <["REJECT" := PReject tt]>
                  (<["DIRECT" := PDirect tt]>
                     (<["AUTO" := PURLTest auto]>
                        (<["PROXY1" := proxy1]> ∅)));
     traffic := tt |}.

(** A document whose first rule names a proxy that is declared nowhere,
    and the tunnel after loading it. *)
Definition staleDoc : Config :=
  list_to_map
    [ ("Proxy", [key "PROXY1" "ss, 1.2.3.4, 8388, aes-256-gcm, pass"]);
      ("Rule", [key "DOMAIN-SUFFIX,example.com,GONE" "";
                key "FINAL,,PROXY1" ""]) ].

Definition staleFirst : Tunnel :=
  {| rules := [DomainSuffix "example.com" "GONE"; Final "PROXY1"];
     proxies := <["REJECT" := PReject tt]>
                  (<["DIRECT" := PDirect tt]> (<["PROXY1" := proxy1]> ∅));
     traffic := tt |}.

(** Networks in which every connect succeeds, respectively fails. *)
Definition online : Network :=
  {| Generator := fun p addr => Ok ("to " +:+ addr);
     Connect_panics := fun _ _ => false |}.

Definition offline : Network :=
  {| Generator := fun p addr => Err "unreachable";
     Connect_panics := fun _ _ => false |}.

End Ref.

(** ** Concurrent runs of UpdateConfig and match

    Any number of goroutines call [UpdateConfig] and [match] on one tunnel.
    Each call is cut into its accesses to the shared fields and to
    [configLock]; a run interleaves the steps of the goroutines in any
    order the lock allows. *)

Section Concurrent.
Context `{C : ConstantPkg} `{!RulesPkg} `{T : AdapterTypes} `{!AdaptersPkg}.

(** Where a goroutine stands. A generation number [g] is attached, as
    ghost data, to the tables of every successful compile and to what a
    reader has seen. *)
Inductive thread : Type :=
| Idle
(* UpdateConfig *)
| UCompiled (g : nat) (rules' : list Rule) (proxies' : gmap string Proxy)
| UStop (g : nat) (rules' : list Rule) (proxies' : gmap string Proxy)
    (old : list (string * Proxy))
| USetRules (g : nat) (rules' : list Rule)
| UUnlock
(* match *)
| MStart (addr : Addr)
| MRange (addr : Addr)
| MLoop (addr : Addr) (g : nat) (rest : list Rule)
| MReturn (proxy : option Proxy).

(** The tunnel's tables, the state of [configLock] (a [sync.RWMutex]:
    held by a writer or by a number of readers), and ghost data: the
    generation of the table in each field, the next generation number,
    and [observed], the log of every pairing of a rule with a lookup in
    the proxy table made by a [match], as (generation of the rule table
    the rule came from, generation of the proxy table consulted). *)
Record shared : Type := {
  tun : Tunnel;
  writer : bool;
  readers : nat;
  gen_rules : nat;
  gen_proxies : nat;
  next_gen : nat;
  observed : list (nat * nat)
}.

Definition set_tun (f : Tunnel -> Tunnel) (s : shared) : shared :=
  {| tun := f (tun s); writer := writer s; readers := readers s;
     gen_rules := gen_rules s; gen_proxies := gen_proxies s;
     next_gen := next_gen s; observed := observed s |}.

Definition set_lock (w : bool) (r : nat) (s : shared) : shared :=
  {| tun := tun s; writer := w; readers := r;
     gen_rules := gen_rules s; gen_proxies := gen_proxies s;
     next_gen := next_gen s; observed := observed s |}.

Definition set_gens (gr gp : nat) (s : shared) : shared :=
  {| tun := tun s; writer := writer s; readers := readers s;
     gen_rules := gr; gen_proxies := gp;
     next_gen := next_gen s; observed := observed s |}.

Definition fresh_gen (s : shared) : shared :=
  {| tun := tun s; writer := writer s; readers := readers s;
     gen_rules := gen_rules s; gen_proxies := gen_proxies s;
     next_gen := S (next_gen s); observed := observed s |}.

(** A [match] that read its rules from generation [g] consults the proxy
    table now in the field. *)
Definition observe (g : nat) (s : shared) : shared :=
  {| tun := tun s; writer := writer s; readers := readers s;
     gen_rules := gen_rules s; gen_proxies := gen_proxies s;
     next_gen := next_gen s;
     observed := observed s ++ [(g, gen_proxies s)] |}.

Definition with_proxies (ps : gmap string Proxy) (t : Tunnel) : Tunnel :=
  {| rules := rules t; proxies := ps; traffic := traffic t |}.

Definition with_rules (rs : list Rule) (t : Tunnel) : Tunnel :=
  {| rules := rs; proxies := proxies t; traffic := traffic t |}.

(** One step of one goroutine. *)
Inductive tstep : shared -> thread -> shared -> thread -> Prop :=
(* UpdateConfig: everything up to the insertion of the default proxies
   runs without the lock and touches no shared field *)
| U_compile_fails s getConfig old t' evs e :
    UpdateConfig getConfig old (tun s) = (t', evs, e) -> e <> Ok tt ->
    tstep s Idle s Idle
| U_compile s cfg rules' proxies' :
    compile (traffic (tun s)) cfg = Ok (rules', proxies') ->
    tstep s Idle (fresh_gen s) (UCompiled (next_gen s) rules' proxies')
(* t.configLock.Lock() *)
| U_lock s g rules' proxies' old :
    writer s = false -> readers s = O ->
    old ≡ₚ map_to_list (proxies (tun s)) ->
    tstep s (UCompiled g rules' proxies')
          (set_lock true O s) (UStop g rules' proxies' old)
(* one round of the loop that stops the URL tests *)
| U_stop s g rules' proxies' entry old :
    tstep s (UStop g rules' proxies' (entry :: old))
          s (UStop g rules' proxies' old)
(* t.proxies = proxies *)
| U_set_proxies s g rules' proxies' :
    tstep s (UStop g rules' proxies' [])
          (set_gens (gen_rules s) g (set_tun (with_proxies proxies') s))
          (USetRules g rules')
(* t.rules = rules *)
| U_set_rules s g rules' :
    tstep s (USetRules g rules')
          (set_gens g (gen_proxies s) (set_tun (with_rules rules') s))
          UUnlock
(* the deferred t.configLock.Unlock() *)
| U_unlock s :
    tstep s UUnlock (set_lock false (readers s) s) Idle
(* match is called *)
| M_call s addr :
    tstep s Idle s (MStart addr)
(* t.configLock.RLock() *)
| M_rlock s addr :
    writer s = false ->
    tstep s (MStart addr) (set_lock false (S (readers s)) s) (MRange addr)
(* range t.rules: the slice is read once *)
| M_range s addr :
    tstep s (MRange addr) s (MLoop addr (gen_rules s) (rules (tun s)))
(* a rule that does not match *)
| M_next s addr g rule rest :
    IsMatch rule addr = false ->
    tstep s (MLoop addr g (rule :: rest)) s (MLoop addr g rest)
(* a rule that matches: t.proxies[rule.Adapter()] *)
| M_found s addr g rule rest proxy :
    IsMatch rule addr = true ->
    proxies (tun s) !! Adapter rule = Some proxy ->
    tstep s (MLoop addr g (rule :: rest))
          (observe g s) (MReturn (Some proxy))
| M_stale s addr g rule rest :
    IsMatch rule addr = true ->
    proxies (tun s) !! Adapter rule = None ->
    tstep s (MLoop addr g (rule :: rest)) (observe g s) (MLoop addr g rest)
(* after the loop: t.proxies["DIRECT"] *)
| M_direct s addr g :
    tstep s (MLoop addr g [])
          (observe g s) (MReturn (proxies (tun s) !! "DIRECT"))
(* the deferred t.configLock.RUnlock() *)
| M_runlock s proxy :
    tstep s (MReturn proxy) (set_lock (writer s) (pred (readers s)) s) Idle.

(** The system: the shared state and the goroutines. Goroutine [i] takes
    a step. *)
Inductive step : shared * list thread -> shared * list thread -> Prop :=
| step_at i s s' th th' (pool : list thread) :
    pool !! i = Some th ->
    tstep s th s' th' ->
    step (s, pool) (s', <[i := th']> pool).

(** A tunnel at rest: nobody holds the lock, every goroutine is idle and
    the two tables are of one generation. *)
Definition initial (t : Tunnel) (n : nat) : shared * list thread :=
  ({| tun := t; writer := false; readers := O;
      gen_rules := O; gen_proxies := O; next_gen := 1%nat;
      observed := [] |},
   replicate n Idle).

Definition reachable (t : Tunnel) (n : nat) (st : shared * list thread)
  : Prop :=
  rtc step (initial t n) st.

(** Goroutines inside the read-side and the write-side critical
    section. *)
Definition reading (th : thread) : bool :=
  match th with
  | MRange _ | MLoop _ _ _ | MReturn _ => true
  | _ => false
  end.

Definition writing (th : thread) : bool :=
  match th with
  | UStop _ _ _ _ | USetRules _ _ | UUnlock => true
  | _ => false
  end.

Fixpoint count (f : thread -> bool) (pool : list thread) : nat :=
  match pool with
  | [] => O
  | th :: pool' => ((if f th then 1 else 0) + count f pool')%nat
  end.

(** What the generations in the two fields must be for a goroutine at a
    given point, and the invariant of the system: the lock counts its
    holders, a writer excludes readers, and the two fields are of one
    generation except while a writer stands between its two
    assignments. *)
Definition thread_ok (gr gp : nat) (th : thread) : Prop :=
  match th with
  | MLoop _ g _ => g = gr
  | UStop _ _ _ _ | UUnlock => gr = gp
  | USetRules g _ => gp = g
  | _ => True
  end.

Definition same_generation (o : nat * nat) : Prop := fst o = snd o.

Definition consistent (st : shared * list thread) : Prop :=
  Forall same_generation (observed (fst st))
  /\ count reading (snd st) = readers (fst st)
  /\ count writing (snd st) = (if writer (fst st) then 1%nat else O)
  /\ (writer (fst st) = true -> readers (fst st) = O)
  /\ (writer (fst st) = false -> gen_rules (fst st) = gen_proxies (fst st))
  /\ Forall (thread_ok (gen_rules (fst st)) (gen_proxies (fst st))) (snd st).

End Concurrent.

(** ** The hub's log stream *)

(** What [logsHandler] needs of [tunnel/log.go]: the integers behind the
    four [LogLevel] constants and the [Type] method of a log event. The
    development is parametric in them. *)
Class LogPkg : Type := {
  LogLevel_int : LogLevel -> Z;
  Log_Type : Log -> string
}.

Record LogRequest : Type := { Level : string }.

Record LogEntry : Type := { entry_Type : string; entry_Payload : string }.

(** What the handler does to the response and to the log bus. *)
Inductive Http : Type :=
| HttpError (message : string) (code : Z)
| SetHeader (name value : string)
| Encode (entry : LogEntry)
| Flush
| Subscribed
| UnSubscribed
| BodyClosed.

Definition StatusBadRequest : Z := 400.
Definition StatusInternalServerError : Z := 500.

Definition levelMapping : gmap string LogLevel :=
  list_to_map
    [ ("info", INFO); ("debug", DEBUG); ("error", ERROR);
      ("warning", WARNING) ].

(** The order of severity the design gives: debug < info < warning <
    error. *)
Definition severity (l : LogLevel) : nat :=
  match l with
  | DEBUG => 0
  | INFO => 1
  | WARNING => 2
  | ERROR => 3
  end%nat.

(** The level names the design recognizes, with their severity. *)
Definition severityOfName (name : string) : option nat :=
  if decide (name = "debug") then Some (severity DEBUG)
  else if decide (name = "info") then Some (severity INFO)
  else if decide (name = "warning") then Some (severity WARNING)
  else if decide (name = "error") then Some (severity ERROR)
  else None.

Section Hub.
Context `{!LogPkg}.

Definition entryOf (log : Log) : LogEntry :=
  {| entry_Type := Log_Type log; entry_Payload := Payload log |}.

(** The loop over the subscription. [sub] is what the channel delivers
    until it is closed; [encode] tells for which entries writing the JSON
    fails. *)
Fixpoint stream (encode : LogEntry -> option error) (level : LogLevel)
    (sub : list Log) : list Http :=
  match sub with
  | [] => []
  | log :: rest =>
      if LogLevel_int (Log_LogLevel log) >? LogLevel_int level
      then stream encode level rest
      else
        match encode (entryOf log) with
        | Some err => []
        | None => Encode (entryOf log) :: Flush :: stream encode level rest
        end
  end.

(** [logsHandler]. [decoded] is the outcome of [render.DecodeJSON] on the
    body (a missing [level] field decodes to the empty string),
    [subscribe] that of [src.Subscribe()], [flusher] whether the response
    writer is an [http.Flusher]. *)
Definition logsHandler (decoded : LogRequest + error)
    (subscribe : list Log + error) (flusher : bool)
    (encode : LogEntry -> option error) : list Http :=
  match decoded with
  | inr _ =>
      [HttpError "Invalid request payload" StatusBadRequest; BodyClosed]
  | inl req =>
      let Level := if decide (Level req = "") then "info" else Level req in
      match levelMapping !! Level with
      | None => [HttpError "Invalid log level" StatusBadRequest; BodyClosed]
      | Some level =>
          match subscribe with
          | inr _ =>
              [HttpError "Unable to subscribe to logs"
                 StatusInternalServerError; BodyClosed]
          | inl sub =>
              [Subscribed; SetHeader "Content-Type" "application/json"]
                ++ (if flusher then stream encode level sub
                    else [HttpError "Streaming not supported"
                            StatusInternalServerError])
                ++ [UnSubscribed; BodyClosed]
          end
      end
  end.

(** The entries a response carries. *)
Definition delivered (out : list Http) : list LogEntry :=
  omap (fun h => match h with Encode e => Some e | _ => None end) out.

End Hub.

(** A numbering of the levels for running the handler on concrete
    requests: the more severe, the smaller, in the order ERROR, WARNING,
    INFO, DEBUG. *)
Module RefLog.

#[export] Instance logPkg : LogPkg := {|
  LogLevel_int := fun l =>
    match l with ERROR => 0 | WARNING => 1 | INFO => 2 | DEBUG => 3 end;
  Log_Type := fun log =>
    match Log_LogLevel log with
    | ERROR => "Error" | WARNING => "Warning"
    | INFO => "Info" | DEBUG => "Debug"
    end
|}.

End RefLog.

(** ** The design's wording of entries that are skipped

    An entry is malformed when it has too few comma-separated fields for
    its section, or, for a rule, when its kind is none of the known
    ones. *)

Definition fieldCount (s : string) : nat := length (Go.Split s ",").

Definition ruleKinds : list string :=
  ["DOMAIN-SUFFIX"; "DOMAIN-KEYWORD"; "GEOIP"; "IP-CIDR"; "IP-CIDR6"; "FINAL"].

Definition ruleKind (k : Key) : string :=
  Go.TrimSpace (default "" (head (Go.Split (Name k) ","))).

Definition wellFormedProxy (k : Key) : bool :=
  negb (fieldCount (Value k) <? 5)%nat.

Definition wellFormedRule (k : Key) : bool :=
  negb (fieldCount (Name k) <? 3)%nat && bool_decide (ruleKind k ∈ ruleKinds).

Definition wellFormedGroup (k : Key) : bool :=
  negb (fieldCount (Value k) <? 4)%nat.

(** The document with its malformed entries struck out. *)
Definition skipMalformed (cfg : Config) : Config :=
  <["Proxy" := filter (fun k => wellFormedProxy k = true) (Keys cfg "Proxy")]>
    (<["Rule" := filter (fun k => wellFormedRule k = true) (Keys cfg "Rule")]>
       (<["Proxy Group" :=
            filter (fun k => wellFormedGroup k = true) (Keys cfg "Proxy Group")]>
          cfg)).


(** A moment in a run of two goroutines on the loaded tunnel: goroutine 0
    has matched www.example.com and is done; goroutine 1, reloading
    [Ref.sample], holds the lock and has assigned the new proxy table but
    not yet the new rule table. *)
Module RefRun.
Import Ref.

Definition order : list (string * Proxy) :=
  [ ("AUTO", PURLTest auto); ("REJECT", PReject tt);
    ("DIRECT", PDirect tt); ("PROXY1", proxy1) ].

Definition rules' : list Rule :=
  rules (fst (fst (UpdateConfig (inl sample) order loaded))).

Definition proxies' : gmap string Proxy :=
  proxies (fst (fst (UpdateConfig (inl sample) order loaded))).

Definition midSwap : shared * list thread :=
  ({| tun := with_proxies proxies' loaded;
      writer := true; readers := O;
      gen_rules := O; gen_proxies := 1%nat; next_gen := 2%nat;
      observed := [(O, O)] |},
   [Idle; USetRules 1%nat rules']).

End RefRun.

(** ** Start-up and a series of reloads *)

Section Startup.
Context `{C : ConstantPkg} `{!RulesPkg} `{T : AdapterTypes} `{!AdaptersPkg}.

(** The tables [newTunnel] sets up: [rules] is left nil and [proxies] is an
    empty map. [tr] is what [C.NewTraffic(time.Second)] returns. *)
Definition newTunnel (tr : Traffic) : Tunnel :=
  {| rules := []; proxies := ∅; traffic := tr |}.

(** Calls of [UpdateConfig] one after the other, each with what
    [C.GetConfig()] returns to it and the order its range over the old
    table takes; the tunnel after the last call. *)
Fixpoint reloads (calls : list ((Config + error) * list (string * Proxy)))
    (t : Tunnel) : Tunnel :=
  match calls with
  | [] => t
  | (getConfig, old) :: rest =>
      reloads rest (fst (fst (UpdateConfig getConfig old t)))
  end.

(** Whether a call returned nil. *)
Definition succeeded (r : result unit) : bool :=
  match r with Ok _ => true | _ => false end.

(** The events on [configLock]. *)
Definition isLockEvent (e : Event) : bool :=
  match e with
  | EvLock | EvUnlock | EvRLock | EvRUnlock => true
  | _ => false
  end.

(** The calls into the network. *)
Definition isNetworkEvent (e : Event) : bool :=
  match e with
  | EvGenerator _ _ | EvConnect _ _ => true
  | _ => false
  end.

(** The [Close] call that the stop loop makes for one entry of the old
    table, if any. *)
Definition closeOf (entry : string * Proxy) : option Event :=
  match snd entry with
  | PURLTest urlTest => Some (EvClose urlTest)
  | _ => None
  end.

End Startup.

(** The number of commas in a line. *)
Fixpoint commas (s : string) : nat :=
  match s with
  | EmptyString => O
  | String c rest => ((if Ascii.eqb c "," then 1 else 0) + commas rest)%nat
  end.

(** ** The hub's traffic stream *)

Module HubTraffic.

(** The JSON object of one sample. *)
Record Traffic : Type := { Up : Z; Down : Z }.

(** What [trafficHandler] does to the response, to its ticker and to the
    error log. *)
Inductive Event : Type :=
| SetHeader (name value : string)
| WriteHeader (code : Z)
| NewTicker
| TickerStop
| HttpError (message : string) (code : Z)
| Encode (sample : Traffic)
| Flush
| LogError (err : error).

Definition StatusOK : Z := 200.

(** The loop over the ticks. [samples] is what [t.Now()] returns at the
    ticks that have come so far; [encode] tells for which objects writing
    the JSON fails. The flag says whether the loop was left: it is left
    only through [break], and with no tick pending it waits. *)
Fixpoint ticks (encode : Traffic -> option error) (samples : list (Z * Z))
  : list Event * bool :=
  match samples with
  | [] => ([], false)
  | (up, down) :: rest =>
      match encode {| Up := up; Down := down |} with
      | Some err => ([LogError err], true)
      | None =>
          let '(evs, broke) := ticks encode rest in
          (Encode {| Up := up; Down := down |} :: Flush :: evs, broke)
      end
  end.

(** [trafficHandler]: the events so far and whether the handler has
    returned. The deferred [tick.Stop()] runs when it returns. *)
Definition trafficHandler (flusher : bool) (samples : list (Z * Z))
    (encode : Traffic -> option error) : list Event * bool :=
  let start :=
    [SetHeader "Content-Type" "application/json"; WriteHeader StatusOK;
     NewTicker] in
  if flusher then
    let '(evs, broke) := ticks encode samples in
    (start ++ evs ++ (if broke then [TickerStop] else []), broke)
  else
    (start ++ [HttpError "Streaming not supported" StatusInternalServerError;
               TickerStop],
     true).

(** The objects a response carries. *)
Definition written (out : list Event) : list Traffic :=
  omap (fun e => match e with Encode s => Some s | _ => None end) out.

Definition sampleOf (s : Z * Z) : Traffic := {| Up := fst s; Down := snd s |}.

(** The samples before the first one whose encoding fails. *)
Fixpoint encodable (encode : Traffic -> option error) (samples : list (Z * Z))
  : list (Z * Z) :=
  match samples with
  | [] => []
  | s :: rest =>
      match encode (sampleOf s) with
      | Some _ => []
      | None => s :: encodable encode rest
      end
  end.

End HubTraffic.

(** More documents and states of the reference implementation. *)
Module RefExtra.
Import Ref.

(** A document in which a group has the key name of a proxy. *)
Definition shadowed : Config :=
  list_to_map
    [ ("Proxy", [key "AUTO" "ss, 5.6.7.8, 8388, aes-256-gcm, pass";
                 key "PROXY1" "ss, 1.2.3.4, 8388, aes-256-gcm, pass"]);
      ("Proxy Group",
       [key "AUTO" "url-test, PROXY1, http://t.example/, 300"]) ].

(** Calls of [UpdateConfig] that fail: the document cannot be read, a
    constructor refuses. *)
Definition failing : list ((Config + error) * list (string * Proxy)) :=
  [ (inr "unreadable", []); (inl badCipher, []) ].

(** Goroutine 0 of two, on the loaded tunnel, holds the shared lock and is
    about to read the rules; then it has read them. *)
Definition atRange : shared * list thread :=
  ({| tun := loaded; writer := false; readers := 1%nat;
      gen_rules := O; gen_proxies := O; next_gen := 1%nat;
      observed := [] |},
   [MRange "www.example.com"; Idle]).

Definition inLoop : shared * list thread :=
  (fst atRange, [MLoop "www.example.com" O (rules loaded); Idle]).

Definition events : list Log :=
  [newLog INFO "a"; newLog ERROR "b"; newLog WARNING "c"; newLog DEBUG "d"].

End RefExtra.

(** ** Requests to the log stream *)

(** The body of a request, as far as [render.DecodeJSON] into a
    [LogRequest] tells bodies apart: no body at all, a JSON object with or
    without a string member [level], anything else. *)
Inductive RequestBody : Type :=
| NoBody
| JSONObject (level : option string)
| NotJSON.

(** [render.DecodeJSON(r.Body, req)] on a fresh [LogRequest]: the decoder
    of [encoding/json] returns [io.EOF] when there is nothing to read;
    a member that the object lacks leaves the field at its zero value, the
    empty string. *)
Definition DecodeJSON (body : RequestBody) : LogRequest + error :=
  match body with
  | NoBody => inr "EOF"
  | JSONObject None => inl {| Level := "" |}
  | JSONObject (Some level) => inl {| Level := level |}
  | NotJSON => inr "invalid character looking for beginning of value"
  end.

(** The level a request asks for, if it names one. *)
Definition requestedLevel (body : RequestBody) : option string :=
  match body with
  | JSONObject level => level
  | _ => None
  end.

(** The level the handler looks up for a decoded request. *)
Definition levelOf (req : LogRequest) : string :=
  if decide (Level req = "") then "info" else Level req.

Section HubWording.
Context `{!LogPkg}.

(** The design's wording of the default: a request is served as one that
    asks for level info. *)
Definition servedAsInfo (body : RequestBody) : Prop :=
  forall subscribe flusher encode,
    logsHandler (DecodeJSON body) subscribe flusher encode
    = logsHandler (inl {| Level := "info" |}) subscribe flusher encode.

End HubWording.

(** * Properties *)

(** ** The library functions on examples *)

Example Split_ex1 : Go.Split "FINAL,DIRECT" "," = ["FINAL"; "DIRECT"].
Proof. reflexivity. Qed.

Example Split_ex2 : Go.Split "" "," = [""].
Proof. reflexivity. Qed.

Example Split_ex3 : Go.Split "a,,b," "," = ["a"; ""; "b"; ""].
Proof. reflexivity. Qed.

Example TrimSpace_ex1 : Go.TrimSpace "  ss 1 " = "ss 1".
Proof. vm_compute. reflexivity. Qed.

Example TrimSpace_ex2 : Go.TrimSpace "   " = "".
Proof. vm_compute. reflexivity. Qed.

Example Atoi_ex1 : Go.Atoi "300" = 300.
Proof. reflexivity. Qed.

Example Atoi_ex2 : Go.Atoi "-7" = -7 /\ Go.Atoi "3s" = 0 /\ Go.Atoi "+" = 0.
Proof. repeat split; reflexivity. Qed.

Example Atoi_ex3 : Go.Atoi "99999999999999999999" = Go.maxInt64.
Proof. reflexivity. Qed.

(** The overflow is reported before the stray byte is seen. *)
Example Atoi_ex4 :
  Go.Atoi "99999999999999999999s" = Go.maxInt64
  /\ Go.Atoi "-9223372036854775808" = Go.minInt64
  /\ Go.Atoi "9223372036854775807" = Go.maxInt64
  /\ Go.Atoi "1_000" = 0.
Proof. repeat split; reflexivity. Qed.

Example Seconds_ex1 :
  Go.Seconds 300 = 300000000000
  /\ Go.Seconds Go.maxInt64 = -1000000000.
Proof. split; reflexivity. Qed.

(** A no-break space (U+00A0) in front and an ideographic space (U+3000)
    behind are white space too. *)
Example TrimSpace_ex3 :
  Go.TrimSpace
    (string_of_list_ascii
       (Go.bytes [194; 160]%N ++ list_ascii_of_string "ss"
          ++ Go.bytes [227; 128; 128]%N))
  = "ss".
Proof. vm_compute. reflexivity. Qed.

(** A lone continuation byte is not white space. *)
Example TrimSpace_ex4 :
  Go.TrimSpace (string_of_list_ascii (Go.bytes [160; 32]%N ++ ["x"%char]))
  = string_of_list_ascii (Go.bytes [160; 32]%N ++ ["x"%char]).
Proof. vm_compute. reflexivity. Qed.

(** ** Loops and indexing *)

Lemma slice_in_range {A : Type} (l : list A) (lo hi : nat) :
  (lo <= hi <= length l)%nat -> slice l lo hi = Ok (take (hi - lo) (drop lo l)).
Proof.
  intros [H1 H2]. unfold slice.
  apply Nat.leb_le in H1, H2. by rewrite H1, H2.
Qed.

Lemma foldM_app {A B : Type} (f : A -> B -> result A) (a : A) (l1 l2 : list B) :
  foldM f a (l1 ++ l2) = (a' <- foldM f a l1 ;; foldM f a' l2).
Proof.
  revert a. induction l1 as [|b l1 IH]; intros a; simpl; [done|].
  destruct (f a b); simpl; auto.
Qed.

(** Entries on which the body does nothing can be dropped from the loop. *)
Lemma foldM_filter {A B : Type} (f : A -> B -> result A) (keep : B -> bool)
    (l : list B) :
  (forall a b, keep b = false -> f a b = Ok a) ->
  forall a, foldM f a (filter (fun b => keep b = true) l) = foldM f a l.
Proof.
  intros Hskip. induction l as [|b l IH]; intros a; [done|].
  rewrite filter_cons. destruct (keep b) eqn:Hb.
  - rewrite decide_True by done. simpl. destruct (f a b); simpl; auto.
  - rewrite decide_False by done. simpl. rewrite (Hskip a b Hb). simpl. auto.
Qed.

(** A loop whose body never panics does not panic. *)
Lemma foldM_no_panic {A B : Type} (f : A -> B -> result A) (l : list B) :
  (forall a b, f a b <> Panic) -> forall a, foldM f a l <> Panic.
Proof.
  intros Hf. induction l as [|b l IH]; intros a; simpl; [done|].
  specialize (Hf a b). destruct (f a b); simpl; auto.
Qed.

(** An invariant of the accumulator that every round keeps holds at the
    end. *)
Lemma foldM_invariant {A B : Type} (f : A -> B -> result A)
    (I : list B -> A -> Prop) (l : list B) (a a' : A) :
  I [] a ->
  (forall seen b x y, I seen x -> f x b = Ok y -> I (seen ++ [b]) y) ->
  foldM f a l = Ok a' -> I l a'.
Proof.
  intros H0 Hstep.
  assert (forall seen x, I seen x -> foldM f x l = Ok a' -> I (seen ++ l) a')
    as Hgen.
  { induction l as [|b l IH]; intros seen x Hx; simpl.
    - intros [= <-]. by rewrite app_nil_r.
    - destruct (f x b) as [y| |] eqn:Hb; simpl; try done.
      intros Hl. replace (seen ++ b :: l) with ((seen ++ [b]) ++ l)
        by (by rewrite <- app_assoc).
      eapply IH; eauto. }
  intros Hl. apply (Hgen [] a H0 Hl).
Qed.

Arguments Go.TrimSpace : simpl never.
Arguments Go.Split : simpl never.
Arguments Go.Atoi : simpl never.
Arguments Go.Seconds : simpl never.


(** ** The configuration compiler *)

Section CompileFacts.
Context `{C : ConstantPkg} `{!RulesPkg} `{T : AdapterTypes} `{!AdaptersPkg}.

Lemma last_two_fields (g0 g1 g2 g3 : string) (rest : list string) :
  exists names url d,
    g0 :: g1 :: g2 :: g3 :: rest = g0 :: names ++ [url; d]
    /\ names <> [].
Proof.
  revert g1 g2 g3. induction rest as [|x rest IH]; intros g1 g2 g3.
  - exists [g1], g2, g3. done.
  - destruct (IH g2 g3 x) as (names & url & d & Heq & _).
    exists (g1 :: names), url, d. simpl.
    injection Heq as Heq. split; [|done]. by rewrite Heq.
Qed.

(** What one round of the proxy loop can do. *)
Lemma parseProxy_cases (tr : Traffic) (ps : gmap string Proxy) (k : Key) :
  parseProxy tr ps k = Ok ps
  \/ (exists ss, parseProxy tr ps k = Ok (<[Name k := PShadowSocks ss]> ps))
  \/ (exists e, parseProxy tr ps k = Err e).
Proof.
  unfold parseProxy.
  destruct (Go.Split (Value k) ",") as [|a [|b [|c [|d [|e rest]]]]];
    simpl; auto.
  unfold index; simpl. case_decide; auto.
  destruct (NewShadowSocks _ _ _); eauto.
Qed.

(** What one round of the rule loop can do: it never fails. *)
Lemma parseRule_cases (rs : list Rule) (k : Key) :
  parseRule rs k = Ok rs \/ exists r, parseRule rs k = Ok (rs ++ [r]).
Proof.
  unfold parseRule.
  destruct (Go.Split (Name k) ",") as [|a [|b [|c rest]]]; simpl; auto.
  unfold index; simpl. repeat case_decide; eauto.
Qed.

(** A group line with its fields named: the kind, the member names, the
    URL and the delay. *)
Lemma parseGroup_fields (ps : gmap string Proxy) (k : Key)
    (g0 url d : string) (names : list string) :
  Go.Split (Value k) "," = g0 :: names ++ [url; d] ->
  names <> [] ->
  parseGroup ps k =
    if decide (Go.TrimSpace g0 = "url-test") then
      match NewURLTest (Name k) (members ps (trimArr names))
              (Go.TrimSpace url) (Go.Seconds (Go.Atoi (Go.TrimSpace d))) with
      | inr err => Err ("Config error: " +:+ err)
      | inl adapter => Ok (<[Name k := PURLTest adapter]> ps)
      end
    else Ok ps.
Proof.
  intros Hsplit Hnames. unfold parseGroup. rewrite Hsplit.
  assert (0 < length names)%nat as Hpos
    by (destruct names; [done|simpl; lia]).
  assert (length (g0 :: names ++ [url; d]) = (length names + 3)%nat) as Hlen.
  { simpl. rewrite length_app. simpl. lia. }
  assert (trimArr (g0 :: names ++ [url; d])
          = (Go.TrimSpace g0 :: trimArr names)
              ++ [Go.TrimSpace url; Go.TrimSpace d]) as Htrim.
  { unfold trimArr. simpl. by rewrite map_app. }
  assert (length (Go.TrimSpace g0 :: trimArr names) = S (length names))
    as Hlen1.
  { unfold trimArr. simpl. by rewrite length_map. }
  rewrite Htrim.
  replace (length (g0 :: names ++ [url; d]) <? 4)%nat with false
    by (symmetry; apply Nat.ltb_ge; lia).
  replace (length ((Go.TrimSpace g0 :: trimArr names)
                     ++ [Go.TrimSpace url; Go.TrimSpace d]))
    with (length names + 3)%nat by (rewrite length_app, Hlen1; simpl; lia).
  unfold index at 1. simpl lookup. cbn beta iota. simpl bind at 1.
  case_decide; [|done].
  set (tn := trimArr names) in *.
  assert (length tn = length names) as Htn
    by (subst tn; unfold trimArr; by rewrite length_map).
  assert (slice (Go.TrimSpace g0 :: tn ++ [Go.TrimSpace url; Go.TrimSpace d])
            1 (length names + 3 - 2) = Ok tn) as ->.
  { rewrite slice_in_range by (simpl; rewrite length_app; simpl; lia).
    simpl drop. f_equal.
    replace (length names + 3 - 2 - 1)%nat with (length tn) by lia.
    rewrite drop_0. by rewrite take_app_length. }
  assert (index (Go.TrimSpace g0 :: tn ++ [Go.TrimSpace url; Go.TrimSpace d])
            (length names + 3 - 1) = Ok (Go.TrimSpace d)) as ->.
  { unfold index.
    replace (length names + 3 - 1)%nat with (S (length tn + 1)) by lia.
    simpl lookup. rewrite lookup_app_r by lia.
    replace (length tn + 1 - length tn)%nat with 1%nat by lia. done. }
  assert (index (Go.TrimSpace g0 :: tn ++ [Go.TrimSpace url; Go.TrimSpace d])
            (length names + 3 - 2) = Ok (Go.TrimSpace url)) as ->.
  { unfold index.
    replace (length names + 3 - 2)%nat with (S (length tn + 0)) by lia.
    simpl lookup. rewrite lookup_app_r by lia.
    replace (length tn + 0 - length tn)%nat with 0%nat by lia. done. }
  done.
Qed.

(** What one round of the group loop can do. *)
Lemma parseGroup_cases (ps : gmap string Proxy) (k : Key) :
  parseGroup ps k = Ok ps
  \/ (exists u, parseGroup ps k = Ok (<[Name k := PURLTest u]> ps))
  \/ (exists e, parseGroup ps k = Err e).
Proof.
  destruct (Go.Split (Value k) ",") as [|a [|b [|c [|d rest]]]] eqn:Hs;
    try (left; unfold parseGroup; rewrite Hs; reflexivity).
  destruct (last_two_fields a b c d rest) as (names & url & dl & Heq & Hne).
  rewrite Heq in Hs. rewrite (parseGroup_fields ps k _ _ _ _ Hs Hne).
  case_decide; auto. destruct (NewURLTest _ _ _ _); eauto.
Qed.

Lemma parseProxy_no_panic tr ps k : parseProxy tr ps k <> Panic.
Proof.
  destruct (parseProxy_cases tr ps k) as [-> | [[ss ->] | [e ->]]]; done.
Qed.

Lemma parseRule_no_panic rs k : parseRule rs k <> Panic.
Proof. destruct (parseRule_cases rs k) as [-> | [r ->]]; done. Qed.

Lemma parseRule_no_error rs k e : parseRule rs k <> Err e.
Proof. destruct (parseRule_cases rs k) as [-> | [r ->]]; done. Qed.

Lemma parseGroup_no_panic ps k : parseGroup ps k <> Panic.
Proof.
  destruct (parseGroup_cases ps k) as [-> | [[u ->] | [e ->]]]; done.
Qed.

Lemma parseRules_total (keys : list Key) (rs : list Rule) :
  exists rs', foldM parseRule rs keys = Ok rs'.
Proof.
  revert rs. induction keys as [|k keys IH]; intros rs; simpl; [eauto|].
  destruct (parseRule_cases rs k) as [-> | [r ->]]; simpl; auto.
Qed.

(** The compiler indexes and slices within bounds only. *)
Lemma compile_no_panic (tr : Traffic) (cfg : Config) :
  compile tr cfg <> Panic.
Proof.
  unfold compile.
  pose proof (foldM_no_panic (parseProxy tr) (Keys cfg "Proxy")
                (parseProxy_no_panic tr) ∅) as Hp.
  destruct (foldM (parseProxy tr) ∅ (Keys cfg "Proxy")) as [ps| |];
    simpl; try done.
  destruct (parseRules_total (Keys cfg "Rule") []) as [rs ->]. simpl.
  pose proof (foldM_no_panic parseGroup (Keys cfg "Proxy Group")
                parseGroup_no_panic ps) as Hg.
  destruct (foldM parseGroup ps (Keys cfg "Proxy Group")); simpl; done.
Qed.

(** The names the proxy map knows are names of keys already read. *)
Lemma parseProxies_names tr keys ps name :
  foldM (parseProxy tr) ∅ keys = Ok ps ->
  is_Some (ps !! name) -> name ∈ map Name keys.
Proof.
  intros Hf. revert name.
  apply (foldM_invariant (parseProxy tr)
           (fun seen m => forall name, is_Some (m !! name) -> name ∈ map Name seen)
           keys ∅ ps); [| |done].
  - intros name. rewrite lookup_empty. by intros [? ?].
  - intros seen b x y Hx Hb name. rewrite map_app. simpl.
    rewrite elem_of_app, list_elem_of_singleton.
    destruct (parseProxy_cases tr x b) as [E | [[ss E] | [e E]]];
      rewrite E in Hb; simplify_eq; auto.
    rewrite lookup_insert. case_decide; auto.
Qed.

Lemma parseGroups_names keys ps0 ps name :
  foldM parseGroup ps0 keys = Ok ps ->
  is_Some (ps !! name) -> is_Some (ps0 !! name) \/ name ∈ map Name keys.
Proof.
  intros Hf. revert name.
  apply (foldM_invariant parseGroup
           (fun seen m => forall name, is_Some (m !! name) ->
              is_Some (ps0 !! name) \/ name ∈ map Name seen)
           keys ps0 ps); [| |done].
  - auto.
  - intros seen b x y Hx Hb name. rewrite map_app. simpl.
    rewrite elem_of_app, list_elem_of_singleton.
    destruct (parseGroup_cases x b) as [E | [[u E] | [e E]]];
      rewrite E in Hb; simplify_eq.
    + intros Hn. destruct (Hx name Hn); auto.
    + rewrite lookup_insert. case_decide; auto.
      intros Hn. destruct (Hx name Hn); auto.
Qed.

Lemma members_omap (ps : gmap string Proxy) (names : list string) :
  members ps names = omap (fun name => ps !! name) names.
Proof.
  induction names as [|n names IH]; simpl; [done|].
  destruct (ps !! n); by rewrite IH.
Qed.

Lemma members_app ps l1 l2 :
  members ps (l1 ++ l2) = members ps l1 ++ members ps l2.
Proof. rewrite !members_omap. apply omap_app. Qed.

End CompileFacts.

Section ReloadClaims.
Context `{C : ConstantPkg} `{!RulesPkg} `{T : AdapterTypes} `{!AdaptersPkg}.

Lemma wellFormedProxy_skip tr ps k :
  wellFormedProxy k = false -> parseProxy tr ps k = Ok ps.
Proof.
  unfold wellFormedProxy, fieldCount, parseProxy.
  intros Hk. apply negb_false_iff in Hk. by rewrite Hk.
Qed.

Lemma wellFormedGroup_skip ps k :
  wellFormedGroup k = false -> parseGroup ps k = Ok ps.
Proof.
  unfold wellFormedGroup, fieldCount, parseGroup.
  intros Hk. apply negb_false_iff in Hk. by rewrite Hk.
Qed.

Lemma wellFormedRule_skip rs k :
  wellFormedRule k = false -> parseRule rs k = Ok rs.
Proof.
  unfold wellFormedRule, fieldCount, ruleKind, parseRule.
  intros Hk. apply andb_false_iff in Hk as [Hk | Hk].
  - apply negb_false_iff in Hk. by rewrite Hk.
  - apply bool_decide_eq_false in Hk.
    destruct (Go.Split (Name k) ",") as [|a [|b [|c rest]]]; simpl; auto.
    simpl in Hk. unfold index; simpl. unfold ruleKinds in Hk.
    rewrite !not_elem_of_cons in Hk.
    destruct Hk as (K1 & K2 & K3 & K4 & K5 & K6 & _).
    rewrite !decide_False; tauto.
Qed.

Lemma Keys_skipMalformed cfg :
  Keys (skipMalformed cfg) "Proxy"
    = filter (fun k => wellFormedProxy k = true) (Keys cfg "Proxy")
  /\ Keys (skipMalformed cfg) "Rule"
    = filter (fun k => wellFormedRule k = true) (Keys cfg "Rule")
  /\ Keys (skipMalformed cfg) "Proxy Group"
    = filter (fun k => wellFormedGroup k = true) (Keys cfg "Proxy Group").
Proof.
  unfold skipMalformed. repeat split.
  - unfold Keys at 1. by rewrite lookup_insert_eq.
  - unfold Keys at 1. rewrite lookup_insert_ne by done.
    by rewrite lookup_insert_eq.
  - unfold Keys at 1. rewrite !lookup_insert_ne by done.
    by rewrite lookup_insert_eq.
Qed.

(** C3. An entry with too few fields for its section, and a rule of an
    unknown kind, leaves the table being built as it is and reports
    nothing; [UpdateConfig] on a document does exactly what it does on
    the document with all such entries struck out, so these entries
    never make it return an error. *)
Theorem malformed_entries_are_skipped :
  (forall tr ps k, wellFormedProxy k = false -> parseProxy tr ps k = Ok ps)
  /\ (forall rs k, wellFormedRule k = false -> parseRule rs k = Ok rs)
  /\ (forall ps k, wellFormedGroup k = false -> parseGroup ps k = Ok ps)
  /\ (forall cfg old t,
        UpdateConfig (inl cfg) old t
        = UpdateConfig (inl (skipMalformed cfg)) old t).
Proof.
  split; [exact wellFormedProxy_skip|].
  split; [exact wellFormedRule_skip|].
  split; [exact wellFormedGroup_skip|].
  intros cfg old t. unfold UpdateConfig, compile.
  destruct (Keys_skipMalformed cfg) as (-> & -> & ->).
  rewrite (foldM_filter _ wellFormedProxy)
    by (intros; by apply wellFormedProxy_skip).
  rewrite (foldM_filter _ wellFormedRule)
    by (intros; by apply wellFormedRule_skip).
  destruct (foldM (parseProxy (traffic t)) ∅ (Keys cfg "Proxy")) as [ps| |];
    simpl; try done.
  destruct (foldM parseRule [] (Keys cfg "Rule")) as [rs| |]; simpl; try done.
  rewrite (foldM_filter _ wellFormedGroup)
    by (intros; by apply wellFormedGroup_skip).
  done.
Qed.

(** C4. After a successful [UpdateConfig] the proxy table binds DIRECT
    and REJECT to the built-in Direct and Reject proxies, whatever the
    document declared under these names. *)
Theorem reserved_names_after_reload getConfig old t t' evs :
  UpdateConfig getConfig old t = (t', evs, Ok tt) ->
  proxies t' !! "DIRECT" = Some (PDirect (NewDirect (traffic t)))
  /\ proxies t' !! "REJECT" = Some (PReject NewReject).
Proof.
  unfold UpdateConfig. destruct getConfig as [cfg|err]; [|done].
  destruct (compile (traffic t) cfg) as [[rs ps]| |] eqn:Hc; try done.
  intros [= <- _]. simpl.
  unfold compile in Hc.
  destruct (foldM (parseProxy _) _ _) as [ps0| |]; simpl in Hc; try done.
  destruct (foldM parseRule _ _) as [rs0| |]; simpl in Hc; try done.
  destruct (foldM parseGroup _ _) as [ps1| |]; simpl in Hc; try done.
  injection Hc as <- <-.
  split.
  - rewrite lookup_insert_ne by done. apply lookup_insert_eq.
  - apply lookup_insert_eq.
Qed.

(** C5. When the document cannot be read, or a proxy or group constructor
    reports a failure, [UpdateConfig] returns that (non-nil) error, the
    tunnel's tables are what they were and nothing was done to them: no
    lock taken, no group closed. Whenever [UpdateConfig] does not return
    nil it is in this way. *)
Theorem failed_reload_keeps_tables getConfig old t :
  (forall err, getConfig = inr err ->
     UpdateConfig getConfig old t = (t, [], Err err))
  /\ (forall cfg pre k post ps err,
        getConfig = inl cfg ->
        Keys cfg "Proxy" = pre ++ k :: post ->
        foldM (parseProxy (traffic t)) ∅ pre = Ok ps ->
        parseProxy (traffic t) ps k = Err err ->
        UpdateConfig getConfig old t = (t, [], Err err))
  /\ (forall cfg ps0 pre k post ps err,
        getConfig = inl cfg ->
        foldM (parseProxy (traffic t)) ∅ (Keys cfg "Proxy") = Ok ps0 ->
        Keys cfg "Proxy Group" = pre ++ k :: post ->
        foldM parseGroup ps0 pre = Ok ps ->
        parseGroup ps k = Err err ->
        UpdateConfig getConfig old t = (t, [], Err err))
  /\ (forall t' evs r,
        UpdateConfig getConfig old t = (t', evs, r) -> r <> Ok tt ->
        t' = t /\ evs = [] /\ exists err, r = Err err).
Proof.
  split; [by intros err ->|].
  split.
  { intros cfg pre k post ps err -> Hkeys Hpre Hk.
    unfold UpdateConfig, compile. rewrite Hkeys, foldM_app, Hpre. simpl.
    by rewrite Hk. }
  split.
  { intros cfg ps0 pre k post ps err -> Hps Hkeys Hpre Hk.
    unfold UpdateConfig, compile. rewrite Hps. simpl.
    destruct (parseRules_total (Keys cfg "Rule") []) as [rs ->]. simpl.
    rewrite Hkeys, foldM_app, Hpre. simpl. by rewrite Hk. }
  intros t' evs r Hu Hr. unfold UpdateConfig in Hu.
  destruct getConfig as [cfg|err]; [|simplify_eq; eauto].
  pose proof (compile_no_panic (traffic t) cfg) as Hnp.
  destruct (compile (traffic t) cfg) as [[rs ps]| |]; simplify_eq; eauto.
Qed.

Lemma parseRule_final rs k f0 f1 f2 rest :
  Go.Split (Name k) "," = f0 :: f1 :: f2 :: rest ->
  Go.TrimSpace f0 = "FINAL" ->
  parseRule rs k = Ok (rs ++ [NewFinal (Go.TrimSpace f2)]).
Proof.
  intros Hs Hf. unfold parseRule. rewrite Hs. simpl.
  unfold index; simpl. rewrite Hf.
  rewrite !decide_False by (try intros [|]; done).
  by rewrite decide_True.
Qed.

Lemma parseRule_two_fields rs k :
  fieldCount (Name k) = 2%nat -> parseRule rs k = Ok rs.
Proof.
  intros Hk. apply wellFormedRule_skip. unfold wellFormedRule.
  by rewrite Hk.
Qed.

(** C2, as the code has it. A rule section made of one two-field line
    and one FINAL line of at least three fields (the adapter name is the
    third, as in [FINAL,,DIRECT]) compiles, in either order of the two
    lines, to the table of that one final rule; when the proxy and group
    sections raise no error, [UpdateConfig] returns nil and installs
    it. *)
Theorem reload_with_one_malformed_rule cfg old t bad fin f0 f1 f2 rest
    ps0 ps1 :
  fieldCount (Name bad) = 2%nat ->
  Go.Split (Name fin) "," = f0 :: f1 :: f2 :: rest ->
  Go.TrimSpace f0 = "FINAL" ->
  Keys cfg "Rule" = [bad; fin] \/ Keys cfg "Rule" = [fin; bad] ->
  foldM (parseProxy (traffic t)) ∅ (Keys cfg "Proxy") = Ok ps0 ->
  foldM parseGroup ps0 (Keys cfg "Proxy Group") = Ok ps1 ->
  exists t' evs,
    UpdateConfig (inl cfg) old t = (t', evs, Ok tt)
    /\ rules t' = [NewFinal (Go.TrimSpace f2)].
Proof.
  intros Hbad Hfin Hf0 Hkeys Hps0 Hps1.
  assert (foldM parseRule [] (Keys cfg "Rule")
          = Ok [NewFinal (Go.TrimSpace f2)]) as Hrules.
  { destruct Hkeys as [-> | ->]; simpl.
    - rewrite (parseRule_two_fields [] bad Hbad). simpl.
      by rewrite (parseRule_final [] fin _ _ _ _ Hfin Hf0).
    - rewrite (parseRule_final [] fin _ _ _ _ Hfin Hf0). simpl.
      by rewrite (parseRule_two_fields _ bad Hbad). }
  unfold UpdateConfig, compile. rewrite Hps0. simpl.
  rewrite Hrules. simpl. rewrite Hps1. simpl. eauto.
Qed.

(** C10. When the group loop reaches a url-test line, the members handed
    to [NewURLTest] are the proxies that the map built so far binds to
    the listed names, in the order listed; a name the map does not bind
    contributes nothing and raises nothing, and the group is constructed
    from whatever is left, be it no member at all. The map binds only
    names of keys of the proxy section and of group lines already
    processed: the built-in DIRECT and REJECT are not in it. *)
Theorem url_test_members tr cfg ps0 ps pre k post g0 names url d :
  foldM (parseProxy tr) ∅ (Keys cfg "Proxy") = Ok ps0 ->
  Keys cfg "Proxy Group" = pre ++ k :: post ->
  foldM parseGroup ps0 pre = Ok ps ->
  Go.Split (Value k) "," = g0 :: names ++ [url; d] ->
  names <> [] ->
  Go.TrimSpace g0 = "url-test" ->
  parseGroup ps k =
    match NewURLTest (Name k) (members ps (trimArr names))
            (Go.TrimSpace url) (Go.Seconds (Go.Atoi (Go.TrimSpace d))) with
    | inr err => Err ("Config error: " +:+ err)
    | inl adapter => Ok (<[Name k := PURLTest adapter]> ps)
    end
  /\ members ps (trimArr names) = omap (fun name => ps !! name) (trimArr names)
  /\ (forall l1 name l2,
        trimArr names = l1 ++ name :: l2 -> ps !! name = None ->
        members ps (trimArr names) = members ps (l1 ++ l2))
  /\ ((forall name, name ∈ trimArr names -> ps !! name = None) ->
      members ps (trimArr names) = [])
  /\ (forall name,
        name ∉ map Name (Keys cfg "Proxy") -> name ∉ map Name pre ->
        ps !! name = None).
Proof.
  intros Hps0 Hkeys Hpre Hsplit Hne Hkind.
  split.
  { rewrite (parseGroup_fields ps k _ _ _ _ Hsplit Hne).
    by rewrite decide_True. }
  split; [apply members_omap|].
  split.
  { intros l1 name l2 -> Hnone. rewrite !members_app. simpl.
    by rewrite Hnone. }
  split.
  { generalize (trimArr names). intros l Hl.
    induction l as [|n l IH]; simpl; [done|].
    rewrite (Hl n) by left. apply IH. intros n' Hn'. apply Hl. by right. }
  intros name Hp Hg. apply eq_None_not_Some. intros Hsome.
  destruct (parseGroups_names pre ps0 ps name Hpre Hsome) as [Hin | Hin];
    [|done].
  apply Hp. by eapply parseProxies_names.
Qed.

Lemma stopURLTests_closes (old : list (string * Proxy)) (u : URLTest) :
  EvClose u ∈ stopURLTests old <-> exists name, (name, PURLTest u) ∈ old.
Proof.
  induction old as [|[n p] old IH]; simpl.
  - split; [by intros ?%elem_of_nil | by intros [? ?%elem_of_nil]].
  - assert ((exists name, (name, PURLTest u) ∈ (n, p) :: old)
            <-> p = PURLTest u \/ exists name, (name, PURLTest u) ∈ old)
      as ->.
    { split.
      - intros [name [[= -> <-] | Hn]%elem_of_cons]; [by left|].
        right. by exists name.
      - intros [-> | [name Hn]]; [exists n; by left|].
        exists name. by right. }
    rewrite <- IH.
    destruct p; rewrite ?elem_of_cons; split;
      try (intros [[=] | ?]; done); try (intros ?; by right).
    + intros [[= ->] | ?]; [by left | by right].
    + intros [[= ->] | ?]; [by left | by right].
Qed.

Lemma stopURLTests_only (old : list (string * Proxy)) (e : Event) :
  e ∈ stopURLTests old -> exists u, e = EvClose u.
Proof.
  induction old as [|[n p] old IH]; simpl.
  - by intros ?%elem_of_nil.
  - destruct p; auto. rewrite elem_of_cons. intros [-> | He]; eauto.
Qed.

(** C6. A successful [UpdateConfig] takes the exclusive lock first and
    releases it last; in between it first calls [Close] on every URL-test
    group of the table it is about to replace (and on nothing else),
    whatever the new table holds under the same names, and only then
    assigns the new proxy table and the new rule table. *)
Theorem superseded_groups_are_closed getConfig old t t' evs :
  old ≡ₚ map_to_list (proxies t) ->
  UpdateConfig getConfig old t = (t', evs, Ok tt) ->
  exists closes,
    evs = [EvLock] ++ closes
            ++ [EvSetProxies (proxies t'); EvSetRules (rules t'); EvUnlock]
    /\ (forall name u,
          proxies t !! name = Some (PURLTest u) -> EvClose u ∈ closes)
    /\ (forall e, e ∈ closes ->
          exists name u,
            e = EvClose u /\ proxies t !! name = Some (PURLTest u)).
Proof.
  intros Hold. unfold UpdateConfig.
  destruct getConfig as [cfg|err]; [|done].
  destruct (compile (traffic t) cfg) as [[rs ps]| |]; try done.
  intros [= <- <-]. exists (stopURLTests old). simpl.
  split; [done|]. split.
  - intros name u Hu. apply stopURLTests_closes. exists name.
    rewrite Hold. by apply elem_of_map_to_list.
  - intros e He. destruct (stopURLTests_only old e He) as [u ->].
    apply stopURLTests_closes in He as [name Hn].
    exists name, u. split; [done|].
    rewrite Hold in Hn. by apply elem_of_map_to_list in Hn.
Qed.

End ReloadClaims.

(** ** Matching and dispatch *)

Section DispatchClaims.
Context `{C : ConstantPkg} `{!RulesPkg} `{T : AdapterTypes} `{!AdaptersPkg}.

Lemma matchRules_find t addr rs :
  snd (matchRules t addr rs) =
    match List.find (usable t addr) rs with
    | Some rule => proxies t !! Adapter rule
    | None => proxies t !! "DIRECT"
    end.
Proof.
  induction rs as [|rule rs IH]; simpl; [done|].
  unfold usable at 1. destruct (IsMatch rule addr); simpl; [|done].
  destruct (proxies t !! Adapter rule) as [proxy|] eqn:Hp.
  - rewrite bool_decide_eq_true_2 by eauto. by rewrite Hp.
  - rewrite bool_decide_eq_false_2 by (by intros [? ?]). done.
Qed.

(** [match] sends one log event, between taking and releasing the shared
    lock. *)
Lemma match_events t addr :
  exists l, fst (match_ t addr) = [EvRLock; EvLog l; EvRUnlock].
Proof.
  unfold match_.
  assert (exists l, fst (matchRules t addr (rules t)) = [EvLog l]) as [l Hl].
  { induction (rules t) as [|rule rs IH]; simpl; [eauto|].
    destruct (IsMatch rule addr); [|done].
    destruct (proxies t !! Adapter rule); simpl; eauto. }
  destruct (matchRules t addr (rules t)) as [evs proxy]. simpl in *.
  subst evs. eauto.
Qed.

Lemma match_snd t addr :
  snd (match_ t addr) = snd (matchRules t addr (rules t)).
Proof. unfold match_. by destruct (matchRules t addr (rules t)). Qed.

Lemma find_first_usable {A : Type} (f : A -> bool) (pre post : list A)
    (x : A) :
  Forall (fun y => f y = false) pre -> f x = true ->
  List.find f (pre ++ x :: post) = Some x.
Proof.
  induction 1 as [|y pre Hy _ IH]; intros Hx; simpl.
  - by rewrite Hx.
  - rewrite Hy. auto.
Qed.

Lemma find_none_usable {A : Type} (f : A -> bool) (l : list A) :
  Forall (fun y => f y = false) l -> List.find f l = None.
Proof. induction 1 as [|y l Hy _ IH]; simpl; [done|]. by rewrite Hy. Qed.

(** C1, as the code has it. [match] returns the proxy bound to the
    adapter name of the first rule, in declaration order, that matches
    the address and whose adapter name is in the proxy table: a matching
    rule whose adapter name is missing is passed over and the rules after
    it are still tried. When no rule is of that kind, [match] returns the
    table's DIRECT entry. With a DIRECT entry in the table, as after every
    successful [UpdateConfig], the proxy returned is not nil. *)
Theorem match_first_usable t addr :
  snd (match_ t addr) =
    match List.find (usable t addr) (rules t) with
    | Some rule => proxies t !! Adapter rule
    | None => proxies t !! "DIRECT"
    end
  /\ (forall pre rule post proxy,
        rules t = pre ++ rule :: post ->
        Forall (fun r => usable t addr r = false) pre ->
        IsMatch rule addr = true ->
        proxies t !! Adapter rule = Some proxy ->
        snd (match_ t addr) = Some proxy)
  /\ (Forall (fun r => usable t addr r = false) (rules t) ->
      snd (match_ t addr) = proxies t !! "DIRECT")
  /\ (is_Some (proxies t !! "DIRECT") -> is_Some (snd (match_ t addr))).
Proof.
  rewrite match_snd, matchRules_find. split; [done|]. split.
  { intros pre rule post proxy -> Hpre Hm Hp.
    rewrite (find_first_usable _ pre post rule Hpre); [done|].
    unfold usable. rewrite Hm. simpl. apply bool_decide_eq_true_2. eauto. }
  split.
  { intros Hall. by rewrite (find_none_usable _ _ Hall). }
  intros Hd. destruct (List.find _ _) as [rule|] eqn:Hf; [|done].
  apply find_some in Hf as [_ Hu]. unfold usable in Hu.
  apply andb_true_iff in Hu as [_ Hu]. by apply bool_decide_eq_true_1 in Hu.
Qed.

(** C9. [handleConn] closes the local connection exactly once, as the
    last thing it does, whether it returns or panics. When the proxy's
    connect fails it sends a warning with the error and returns; no
    event touches an outbound leg. When the connect succeeds there is
    one connect, one relay, and the outbound leg is closed after the
    relay, before the local one, whether the relay returns or panics. *)
Theorem handleConn_closes_connections net t localConn evs exit :
  handleConn net t localConn = (evs, exit) ->
  last evs = Some (EvLocalClose localConn)
  /\ List.filter isLocalClose evs = [EvLocalClose localConn]
  /\ (forall proxy err,
        snd (match_ t (ServerAdapter_Addr localConn)) = Some proxy ->
        Generator net proxy (ServerAdapter_Addr localConn) = Err err ->
        evs = fst (match_ t (ServerAdapter_Addr localConn))
                ++ [EvGenerator proxy (ServerAdapter_Addr localConn);
                    EvLog (newLog WARNING ("Proxy connect error: " +:+ err));
                    EvLocalClose localConn]
        /\ exit = Returned
        /\ List.filter onRemote evs = [])
  /\ (forall proxy remoteConn,
        snd (match_ t (ServerAdapter_Addr localConn)) = Some proxy ->
        Generator net proxy (ServerAdapter_Addr localConn) = Ok remoteConn ->
        evs = fst (match_ t (ServerAdapter_Addr localConn))
                ++ [EvGenerator proxy (ServerAdapter_Addr localConn);
                    EvConnect localConn remoteConn;
                    EvRemoteClose remoteConn;
                    EvLocalClose localConn]
        /\ List.filter onRemote evs
           = [EvConnect localConn remoteConn; EvRemoteClose remoteConn]).
Proof.
  unfold handleConn.
  destruct (match_events t (ServerAdapter_Addr localConn)) as [l Hl].
  destruct (match_ t (ServerAdapter_Addr localConn)) as [mevs proxy].
  simpl in Hl. subst mevs. simpl snd. simpl fst.
  destruct proxy as [proxy|].
  - destruct (Generator net proxy (ServerAdapter_Addr localConn))
      as [remoteConn|err|] eqn:Hg; intros [= <- <-]; simpl.
    + split; [done|]. split; [done|]. split.
      * intros p e [= <-]. by rewrite Hg.
      * intros p r [= <-]. rewrite Hg. by intros [= <-].
    + split; [done|]. split; [done|]. split.
      * intros p e [= <-]. rewrite Hg. by intros [= <-].
      * intros p r [= <-]. by rewrite Hg.
    + split; [done|]. split; [done|]. split.
      * intros p e [= <-]. by rewrite Hg.
      * intros p r [= <-]. by rewrite Hg.
  - intros [= <- <-]; simpl. split; [done|]. split; [done|]. split; done.
Qed.

End DispatchClaims.

(** ** Atomic swap *)

Section ConcurrentFacts.
Context `{C : ConstantPkg} `{!RulesPkg} `{T : AdapterTypes} `{!AdaptersPkg}.

Lemma count_insert (f : thread -> bool) (pool : list thread) (i : nat)
    (th th' : thread) :
  pool !! i = Some th ->
  (count f (<[i := th']> pool) + (if f th then 1 else 0)
   = count f pool + (if f th' then 1 else 0))%nat.
Proof.
  revert i. induction pool as [|x pool IH]; intros [|i] Hi; simpl in *;
    try done.
  - injection Hi as ->. lia.
  - specialize (IH i Hi). lia.
Qed.

Lemma count_none (f : thread -> bool) (pool : list thread) (i : nat)
    (th : thread) :
  count f pool = O -> pool !! i = Some th -> f th = false.
Proof.
  revert i. induction pool as [|x pool IH]; intros [|i] Hc Hi; simpl in *;
    try done.
  - injection Hi as ->. destruct (f th); [lia|done].
  - apply (IH i); [|done]. destruct (f x); lia.
Qed.

Lemma count_some (f : thread -> bool) (pool : list thread) (i : nat)
    (th : thread) :
  pool !! i = Some th -> f th = true -> (0 < count f pool)%nat.
Proof.
  intros Hi Hf. destruct (count f pool) eqn:Hc; [|lia].
  rewrite (count_none f pool i th Hc Hi) in Hf. done.
Qed.

(** A single holder is the only one. *)
Lemma count_one (f : thread -> bool) (pool : list thread) (i j : nat)
    (th th' : thread) :
  f Idle = false ->
  count f pool = 1%nat -> pool !! i = Some th -> f th = true ->
  j <> i -> pool !! j = Some th' -> f th' = false.
Proof.
  intros Hidle Hc Hi Hf Hj Hth'.
  pose proof (count_insert f pool i th Idle Hi) as Hins.
  rewrite Hf, Hidle, Hc in Hins.
  apply (count_none f (<[i := Idle]> pool) j); [lia|].
  by rewrite list_lookup_insert_ne.
Qed.

Lemma thread_ok_outside gr gp th :
  reading th = false -> writing th = false -> thread_ok gr gp th.
Proof. by destruct th. Qed.

Lemma initial_consistent t n : consistent (initial t n).
Proof.
  unfold consistent, initial. simpl.
  assert (forall f, f Idle = false -> count f (replicate n Idle) = O) as Hc.
  { intros f Hf. induction n as [|n IH]; simpl; [done|]. by rewrite Hf. }
  rewrite !Hc by done.
  split; [constructor|]. do 4 (split; [done|]).
  apply Forall_replicate. done.
Qed.

(** The pool after goroutine [i] has moved from [th] to [th'], when the
    generations in the fields are unchanged. *)
Lemma pool_ok_same gr gp pool i th' :
  Forall (thread_ok gr gp) pool -> thread_ok gr gp th' ->
  Forall (thread_ok gr gp) (<[i := th']> pool).
Proof. intros. by apply Forall_insert. Qed.

(** The same when the writer at [i] changes the generations: nobody
    else is inside a critical section. *)
Lemma pool_ok_writer gr gp pool i th th' :
  pool !! i = Some th -> writing th = true ->
  count writing pool = 1%nat -> count reading pool = O ->
  thread_ok gr gp th' ->
  Forall (thread_ok gr gp) (<[i := th']> pool).
Proof.
  intros Hi Hw Hcw Hcr Hth'. apply Forall_lookup. intros j x Hx.
  destruct (decide (j = i)) as [->|Hj].
  - rewrite list_lookup_insert_eq in Hx by (by eapply lookup_lt_Some).
    by injection Hx as <-.
  - rewrite list_lookup_insert_ne in Hx by done.
    apply thread_ok_outside.
    + by eapply count_none.
    + by eapply (count_one writing pool i j th).
Qed.

Lemma step_consistent st st' : consistent st -> step st st' -> consistent st'.
Proof.
  intros (Hobs & Hr & Hw & Hex & Hgen & Hpool) Hstep.
  destruct Hstep as [i s s' th th' pool Hi Ht]. simpl in *.
  pose proof (count_insert reading pool i th th' Hi) as Hcr.
  pose proof (count_insert writing pool i th th' Hi) as Hcw.
  pose proof (proj1 (Forall_lookup _ _) Hpool i th Hi) as Hth.
  assert (reading th = true -> writer s = false) as Hrd.
  { intros Hrt. pose proof (count_some reading pool i th Hi Hrt).
    destruct (writer s); [|done]. specialize (Hex eq_refl). lia. }
  assert (writing th = true -> writer s = true) as Hwr.
  { intros Hwt. pose proof (count_some writing pool i th Hi Hwt).
    destruct (writer s); [done|lia]. }
  unfold consistent.
  destruct Ht; simpl in *;
    try specialize (Hrd eq_refl); try specialize (Hwr eq_refl);
    try match goal with E : writer s = _ |- _ => rewrite E in * end;
    try specialize (Hex eq_refl); try specialize (Hgen eq_refl).
  - (* the compile fails *)
    do 5 (split; [first [assumption | lia]|]). by apply pool_ok_same.
  - (* the compile succeeds *)
    do 5 (split; [first [assumption | lia]|]). by apply pool_ok_same.
  - (* Lock *)
    do 5 (split; [first [assumption | lia | done]|]). by apply pool_ok_same.
  - (* a round of the stop loop *)
    do 5 (split; [first [assumption | lia]|]). by apply pool_ok_same.
  - (* t.proxies = proxies *)
    do 5 (split; [first [assumption | lia | done]|]).
    eapply pool_ok_writer; eauto; simpl; lia.
  - (* t.rules = rules *)
    do 5 (split; [first [assumption | lia | done]|]).
    eapply pool_ok_writer; eauto; simpl; lia.
  - (* Unlock *)
    split; [assumption|]. split; [lia|]. split; [lia|].
    split; [done|]. split; [done|]. by apply pool_ok_same.
  - (* match is called *)
    do 5 (split; [first [assumption | lia]|]). by apply pool_ok_same.
  - (* RLock *)
    do 5 (split; [first [assumption | lia | done]|]). by apply pool_ok_same.
  - (* range *)
    do 5 (split; [first [assumption | lia | done]|]). by apply pool_ok_same.
  - (* next rule *)
    do 5 (split; [first [assumption | lia | done]|]). by apply pool_ok_same.
  - (* found *)
    split; [apply Forall_app; split; [done|]; repeat constructor;
            unfold same_generation; simpl; congruence|].
    do 4 (split; [first [assumption | lia | done]|]). by apply pool_ok_same.
  - (* stale *)
    split; [apply Forall_app; split; [done|]; repeat constructor;
            unfold same_generation; simpl; congruence|].
    do 4 (split; [first [assumption | lia | done]|]). by apply pool_ok_same.
  - (* DIRECT *)
    split; [apply Forall_app; split; [done|]; repeat constructor;
            unfold same_generation; simpl; congruence|].
    do 4 (split; [first [assumption | lia | done]|]). by apply pool_ok_same.
  - (* RUnlock *)
    do 5 (split; [first [assumption | lia | done]|]). by apply pool_ok_same.
Qed.

Lemma reachable_consistent t n st : reachable t n st -> consistent st.
Proof.
  unfold reachable. intros Hreach.
  apply (rtc_ind_r (R := step) (fun st => consistent st) (initial t n));
    [apply initial_consistent | | exact Hreach].
  intros y z _ Hstep Hy. by eapply step_consistent.
Qed.

(** C7. In every state that interleaved calls of [UpdateConfig] and
    [match] can reach, each lookup that a [match] made in the proxy
    table was in the table of the same generation as the rule table it
    took its rule from; and whenever some [match] is between its [RLock]
    and its [RUnlock], no [UpdateConfig] is between its [Lock] and its
    [Unlock] and the two fields hold the rule table and the proxy table
    of one generation. *)
Theorem atomic_swap t n st :
  reachable t n st ->
  Forall same_generation (observed (fst st))
  /\ (forall i th, snd st !! i = Some th -> reading th = true ->
        writer (fst st) = false
        /\ count writing (snd st) = O
        /\ gen_rules (fst st) = gen_proxies (fst st)).
Proof.
  intros Hreach.
  destruct (reachable_consistent t n st Hreach)
    as (Hobs & Hr & Hw & Hex & Hgen & Hpool).
  split; [done|]. intros i th Hi Hrd.
  pose proof (count_some reading _ i th Hi Hrd) as Hpos.
  destruct (writer (fst st)) eqn:Hwt.
  - specialize (Hex eq_refl). lia.
  - auto.
Qed.

End ConcurrentFacts.

(** ** The log stream *)

Section HubFacts.
Context `{!LogPkg}.

Lemma levelMapping_known :
  levelMapping !! "debug" = Some DEBUG
  /\ levelMapping !! "info" = Some INFO
  /\ levelMapping !! "warning" = Some WARNING
  /\ levelMapping !! "error" = Some ERROR.
Proof. repeat split; vm_compute; reflexivity. Qed.

Lemma levelMapping_unknown (name : string) :
  severityOfName name = None -> levelMapping !! name = None.
Proof.
  unfold severityOfName. repeat case_decide; try done. intros _.
  unfold levelMapping. simpl.
  rewrite !lookup_insert_ne by done. apply lookup_empty.
Qed.

Lemma levelMapping_severity (name : string) (m : nat) :
  severityOfName name = Some m ->
  exists level, levelMapping !! name = Some level /\ severity level = m.
Proof.
  destruct levelMapping_known as (Hd & Hi & Hw & He).
  unfold severityOfName. repeat case_decide; subst; intros [= <-]; eauto.
Qed.

Lemma delivered_app (l1 l2 : list Http) :
  delivered (l1 ++ l2) = delivered l1 ++ delivered l2.
Proof. apply omap_app. Qed.

(** With a writer that never fails, the loop writes the events that the
    comparison lets through, in the order they come. *)
Lemma delivered_stream (level : LogLevel) (sub : list Log) :
  delivered (stream (fun _ => None) level sub)
  = map entryOf
      (List.filter
         (fun log =>
            negb (LogLevel_int (Log_LogLevel log) >? LogLevel_int level))
         sub).
Proof.
  induction sub as [|log sub IH]; simpl; [done|].
  destruct (LogLevel_int (Log_LogLevel log) >? LogLevel_int level); simpl.
  - done.
  - unfold delivered in *. simpl. by rewrite IH.
Qed.

(** C8, as the code has it. Provided the integers behind the level
    constants fall as the severity rises (ERROR < WARNING < INFO < DEBUG):
    a decoded request with an empty level is served as one with level
    info; a level that is neither empty nor one of debug, info, warning,
    error is answered with status 400 and nothing else; for a recognized
    level, with a subscription, a flusher and a working encoder, the
    entries written are those of the published events whose severity is
    at least the requested one, in order. The default is for bodies that
    decode: a JSON object without a level, or with an empty one, is served
    as level info, whereas a body that does not decode, a request without
    body among them, is answered with status 400 "Invalid request payload"
    and nothing else, before any level is looked at. *)
Theorem log_stream_by_level :
  LogLevel_int ERROR < LogLevel_int WARNING < LogLevel_int INFO
  /\ LogLevel_int INFO < LogLevel_int DEBUG ->
  (forall subscribe flusher encode,
     logsHandler (inl {| Level := "" |}) subscribe flusher encode
     = logsHandler (inl {| Level := "info" |}) subscribe flusher encode)
  /\ (forall name subscribe flusher encode,
        name <> "" -> severityOfName name = None ->
        logsHandler (inl {| Level := name |}) subscribe flusher encode
        = [HttpError "Invalid log level" 400; BodyClosed])
  /\ (forall name m sub,
        severityOfName name = Some m ->
        delivered
          (logsHandler (inl {| Level := name |}) (inl sub) true
             (fun _ => None))
        = map entryOf
            (List.filter
               (fun log => (m <=? severity (Log_LogLevel log))%nat) sub))
  /\ (forall level, level = None \/ level = Some "" ->
        servedAsInfo (JSONObject level))
  /\ (forall body err subscribe flusher encode,
        DecodeJSON body = inr err ->
        logsHandler (DecodeJSON body) subscribe flusher encode
        = [HttpError "Invalid request payload" 400; BodyClosed])
  /\ DecodeJSON NoBody = inr "EOF".
Proof.
  intros Hnum. split; [done|]. split.
  { intros name subscribe flusher encode Hne Hunknown.
    unfold logsHandler. simpl. rewrite decide_False by done.
    by rewrite (levelMapping_unknown name Hunknown). }
  split.
  2: { split; [by intros level [-> | ->] subscribe flusher encode|].
       split; [|done].
       intros body err subscribe flusher encode ->. done. }
  intros name m sub Hm.
  destruct (levelMapping_severity name m Hm) as (level & Hl & <-).
  assert (name <> "") as Hne.
  { intros ->. by vm_compute in Hm. }
  unfold logsHandler. cbn [Level]. rewrite decide_False by done. rewrite Hl.
  rewrite !delivered_app, delivered_stream.
  change (delivered [Subscribed; SetHeader "Content-Type" "application/json"])
    with (@nil LogEntry).
  change (delivered [UnSubscribed; BodyClosed]) with (@nil LogEntry).
  rewrite app_nil_l, app_nil_r. f_equal.
  induction sub as [|log sub IH]; simpl; [done|].
  rewrite IH.
  replace (negb (LogLevel_int (Log_LogLevel log) >? LogLevel_int level))
    with (severity level <=? severity (Log_LogLevel log))%nat; [done|].
  destruct (Log_LogLevel log), level; simpl; symmetry; rewrite Z.gtb_ltb;
    first [ apply negb_true_iff, Z.ltb_ge; lia
          | apply negb_false_iff, Z.ltb_lt; lia ].
Qed.

End HubFacts.

(** ** The properties on the reference implementation *)

Module Run.
Import Ref RefLog RefRun.

(** The sample document loads into [loaded], on which the design's
    scenario holds: www.example.com goes to PROXY1, other.org to DIRECT. *)
Example sample_loads :
  fst (fst (UpdateConfig (inl sample) [] empty)) = loaded.
Proof. vm_compute. reflexivity. Qed.

Example match_scenario :
  snd (match_ loaded "www.example.com") = Some proxy1
  /\ snd (match_ loaded "other.org") = Some (PDirect tt).
Proof. vm_compute. split; reflexivity. Qed.

(** C1 as the design words it fails: the first rule that matches
    www.example.com names a proxy that is not in the table, and [match]
    goes on to the final rule and returns its proxy, not DIRECT. *)
Lemma match_is_not_first_match :
  fst (fst (UpdateConfig (inl staleDoc) [] empty)) = staleFirst
  /\ firstMatchOrDirect staleFirst "www.example.com" = Some (PDirect tt)
  /\ snd (match_ staleFirst "www.example.com") = Some proxy1
  /\ snd (match_ staleFirst "www.example.com")
     <> firstMatchOrDirect staleFirst "www.example.com".
Proof. vm_compute. repeat split; congruence. Qed.

Lemma match_first_usable_witness :
  snd (match_ staleFirst "www.example.com") = Some proxy1.
Proof.
  apply (proj1 (proj2 (match_first_usable staleFirst "www.example.com"))
           [DomainSuffix "example.com" "GONE"] (Final "PROXY1") []).
  - reflexivity.
  - repeat constructor.
  - reflexivity.
  - vm_compute. reflexivity.
Defined.

(** C2 as the design words it fails: with the FINAL line written in two
    fields both lines are skipped and the table is empty. *)
Lemma two_field_final_is_skipped :
  snd (UpdateConfig (inl twoFieldFinal) [] empty) = Ok tt
  /\ rules (fst (fst (UpdateConfig (inl twoFieldFinal) [] empty))) = []
  /\ length (rules (fst (fst (UpdateConfig (inl twoFieldFinal) [] empty))))
     <> 1%nat.
Proof. vm_compute. repeat split; congruence. Qed.

Lemma reload_with_one_malformed_rule_witness :
  exists t' evs,
    UpdateConfig (inl threeFieldFinal) [] empty = (t', evs, Ok tt)
    /\ rules t' = [Final "DIRECT"].
Proof.
  apply (reload_with_one_malformed_rule threeFieldFinal [] empty
           (key "DOMAIN-SUFFIX,example.com" "") (key "FINAL,,DIRECT" "")
           "FINAL" "" "DIRECT" [] ∅ ∅).
  - reflexivity.
  - reflexivity.
  - vm_compute. reflexivity.
  - left. vm_compute. reflexivity.
  - vm_compute. reflexivity.
  - vm_compute. reflexivity.
Defined.

Lemma malformed_entries_are_skipped_witness :
  parseProxy tt ∅ (key "BROKEN" "ss, 1.2.3.4, 8388") = Ok ∅
  /\ parseRule [] (key "PORT,80,PROXY1" "") = Ok []
  /\ parseGroup ∅ (key "SHORT" "url-test, http://t.example/, 300") = Ok ∅
  /\ UpdateConfig (inl withMalformed) [] empty
     = UpdateConfig (inl (skipMalformed withMalformed)) [] empty.
Proof.
  destruct malformed_entries_are_skipped as (Hp & Hr & Hg & Hu).
  split; [apply Hp; reflexivity|].
  split; [apply Hr; vm_compute; reflexivity|].
  split; [apply Hg; reflexivity|].
  apply Hu.
Defined.

Lemma reserved_names_after_reload_witness :
  proxies (fst (fst (UpdateConfig (inl reservedNames) [] empty))) !! "DIRECT"
  = Some (PDirect tt)
  /\ proxies (fst (fst (UpdateConfig (inl reservedNames) [] empty)))
       !! "REJECT"
     = Some (PReject tt).
Proof.
  refine (reserved_names_after_reload (inl reservedNames) [] empty
            (fst (fst (UpdateConfig (inl reservedNames) [] empty)))
            (snd (fst (UpdateConfig (inl reservedNames) [] empty))) _).
  vm_compute. reflexivity.
Defined.

Lemma failed_reload_keeps_tables_witness :
  UpdateConfig (inl badCipher) (map_to_list (proxies loaded)) loaded
  = (loaded, [], Err "ss: missing cipher").
Proof.
  apply (proj1 (proj2 (failed_reload_keeps_tables (inl badCipher)
                         (map_to_list (proxies loaded)) loaded))
           badCipher
           [key "PROXY1" "ss, 1.2.3.4, 8388, aes-256-gcm, pass"]
           (key "PROXY2" "ss, 1.2.3.4, 8388, , pass") []
           (<["PROXY1" := proxy1]> ∅)).
  - reflexivity.
  - vm_compute. reflexivity.
  - vm_compute. reflexivity.
  - vm_compute. reflexivity.
Defined.

Lemma superseded_groups_are_closed_witness :
  exists closes,
    snd (fst (UpdateConfig (inl sample) (map_to_list (proxies loaded)) loaded))
    = [EvLock] ++ closes
        ++ [EvSetProxies
              (proxies (fst (fst (UpdateConfig (inl sample)
                                    (map_to_list (proxies loaded)) loaded))));
            EvSetRules
              (rules (fst (fst (UpdateConfig (inl sample)
                                  (map_to_list (proxies loaded)) loaded))));
            EvUnlock]
    /\ (forall name u,
          proxies loaded !! name = Some (PURLTest u) -> EvClose u ∈ closes)
    /\ (forall e, e ∈ closes ->
          exists name u,
            e = EvClose u /\ proxies loaded !! name = Some (PURLTest u)).
Proof.
  apply (superseded_groups_are_closed (inl sample)
           (map_to_list (proxies loaded)) loaded
           (fst (fst (UpdateConfig (inl sample)
                        (map_to_list (proxies loaded)) loaded)))).
  - reflexivity.
  - vm_compute. reflexivity.
Defined.

Lemma url_test_members_witness :
  members (<["PROXY1" := proxy1]> ∅) (trimArr [" PROXY1"; " DIRECT"])
  = [proxy1].
Proof.
  destruct (url_test_members (C := constant) tt sample (<["PROXY1" := proxy1]> ∅)
              (<["PROXY1" := proxy1]> ∅) []
              (key "AUTO" "url-test, PROXY1, DIRECT, http://t.example/, 300")
              [] "url-test" [" PROXY1"; " DIRECT"] " http://t.example/"
              " 300")
    as (_ & _ & Hskip & _).
  - vm_compute. reflexivity.
  - vm_compute. reflexivity.
  - reflexivity.
  - reflexivity.
  - discriminate.
  - vm_compute. reflexivity.
  - rewrite (Hskip ["PROXY1"] "DIRECT" []).
    + vm_compute. reflexivity.
    + vm_compute. reflexivity.
    + vm_compute. reflexivity.
Defined.

Lemma handleConn_closes_connections_witness :
  last (fst (handleConn online loaded "www.example.com"))
  = Some (EvLocalClose "www.example.com")
  /\ List.filter onRemote (fst (handleConn offline loaded "www.example.com"))
     = [].
Proof.
  split.
  - apply (handleConn_closes_connections online loaded "www.example.com" _
             (snd (handleConn online loaded "www.example.com"))).
    vm_compute. reflexivity.
  - apply (proj1 (proj2 (proj2
             (handleConn_closes_connections offline loaded "www.example.com"
                (fst (handleConn offline loaded "www.example.com"))
                (snd (handleConn offline loaded "www.example.com"))
                eq_refl))) proxy1 "unreachable").
    + vm_compute. reflexivity.
    + reflexivity.
Defined.

Lemma log_stream_by_level_witness :
  delivered
    (logsHandler (inl {| Level := "warning" |})
       (inl [newLog INFO "a"; newLog ERROR "b"; newLog WARNING "c";
             newLog DEBUG "d"])
       true (fun _ => None))
  = [ {| entry_Type := "Error"; entry_Payload := "b" |};
      {| entry_Type := "Warning"; entry_Payload := "c" |} ].
Proof.
  assert (LogLevel_int ERROR < LogLevel_int WARNING < LogLevel_int INFO
          /\ LogLevel_int INFO < LogLevel_int DEBUG) as Hnum
    by (simpl; lia).
  rewrite (proj1 (proj2 (proj2 (log_stream_by_level Hnum))) "warning" 2%nat).
  - reflexivity.
  - reflexivity.
Defined.

(** C8 as the design words it fails: a request without body asks for no
    level, yet it is not served as level info. Its body does not decode,
    and the handler answers 400 "Invalid request payload" where a request
    for level info gets the events at or above info. *)
Lemma request_without_body_is_rejected :
  requestedLevel NoBody = None
  /\ logsHandler (DecodeJSON NoBody)
       (inl [newLog INFO "a"; newLog ERROR "b"]) true (fun _ => None)
     = [HttpError "Invalid request payload" 400; BodyClosed]
  /\ delivered
       (logsHandler (inl {| Level := "info" |})
          (inl [newLog INFO "a"; newLog ERROR "b"]) true (fun _ => None))
     = [ {| entry_Type := "Info"; entry_Payload := "a" |};
         {| entry_Type := "Error"; entry_Payload := "b" |} ]
  /\ ~ servedAsInfo NoBody.
Proof.
  split; [reflexivity|]. split; [reflexivity|]. split; [reflexivity|].
  intros Hinfo.
  specialize (Hinfo (inl [newLog INFO "a"; newLog ERROR "b"]) true
                (fun _ => None)).
  vm_compute in Hinfo. discriminate Hinfo.
Qed.

Lemma midSwap_reachable : reachable loaded 2 midSwap.
Proof.
  unfold reachable, initial. simpl replicate.
  eapply rtc_l.
  { eapply (step_at 0); [reflexivity|].
    apply (M_call (C := constant) _ "www.example.com"). }
  cbn. eapply rtc_l.
  { eapply (step_at 1); [reflexivity|].
    apply (U_compile _ sample rules' proxies'). vm_compute. reflexivity. }
  cbn. eapply rtc_l.
  { eapply (step_at 0); [reflexivity|]. apply M_rlock. reflexivity. }
  cbn. eapply rtc_l.
  { eapply (step_at 0); [reflexivity|]. apply M_range. }
  cbn. eapply rtc_l.
  { eapply (step_at 0); [reflexivity|].
    refine (M_found _ _ _ _ _ proxy1 _ _); [reflexivity|].
    vm_compute. reflexivity. }
  cbn. eapply rtc_l.
  { eapply (step_at 0); [reflexivity|]. apply M_runlock. }
  cbn. eapply rtc_l.
  { eapply (step_at 1); [reflexivity|].
    apply (U_lock _ _ _ _ order); [reflexivity|reflexivity|].
    vm_compute. reflexivity. }
  cbn. unfold order.
  do 4 (eapply rtc_l;
        [eapply (step_at 1); [reflexivity|]; apply U_stop|cbn]).
  eapply rtc_l.
  { eapply (step_at 1); [reflexivity|]. apply U_set_proxies. }
  cbn. apply rtc_refl.
Qed.

Lemma atomic_swap_witness :
  Forall same_generation (observed (fst midSwap))
  /\ gen_rules (fst midSwap) <> gen_proxies (fst midSwap).
Proof.
  split.
  - apply (atomic_swap loaded 2 midSwap midSwap_reachable).
  - vm_compute. discriminate.
Defined.

End Run.

(** * Further properties of the code *)

(** ** UpdateConfig: what the compiler makes of a document *)

Section CompilerExtras.
Context `{C : ConstantPkg} `{!RulesPkg} `{T : AdapterTypes} `{!AdaptersPkg}.

(** What a rule line adds to the table does not depend on the table so
    far: nothing, or one rule. *)
Lemma parseRule_appends (k : Key) :
  exists new,
    (forall rs, parseRule rs k = Ok (rs ++ new))
    /\ length new = (if wellFormedRule k then 1 else 0)%nat.
Proof.
  unfold wellFormedRule, fieldCount, ruleKind, parseRule.
  destruct (Go.Split (Name k) ",") as [|a [|b [|c rest]]]; simpl;
    try (exists []; split; [intros rs; by rewrite app_nil_r | done]).
  unfold index; simpl.
  destruct (decide (Go.TrimSpace a ∈ ruleKinds)) as [Hin | Hout].
  - rewrite bool_decide_eq_true_2 by done.
    unfold ruleKinds in Hin. rewrite !elem_of_cons in Hin.
    repeat case_decide; eauto.
    exfalso. rewrite elem_of_nil in Hin. tauto.
  - rewrite bool_decide_eq_false_2 by done.
    unfold ruleKinds in Hout. rewrite !not_elem_of_cons in Hout.
    destruct Hout as (K1 & K2 & K3 & K4 & K5 & K6 & _).
    exists []. split; [|done]. intros rs.
    rewrite !decide_False by tauto. by rewrite app_nil_r.
Qed.

Lemma parseRules_appends (keys : list Key) :
  exists new,
    (forall rs, foldM parseRule rs keys = Ok (rs ++ new))
    /\ length new
       = length (filter (fun k => wellFormedRule k = true) keys).
Proof.
  induction keys as [|k keys (new & Hnew & Hlen)].
  - exists []. split; [intros rs; simpl; by rewrite app_nil_r | done].
  - destruct (parseRule_appends k) as (n1 & Hn1 & Hl1).
    exists (n1 ++ new). split.
    + intros rs. simpl. rewrite Hn1. simpl. rewrite Hnew.
      by rewrite app_assoc.
    + rewrite length_app, Hlen, Hl1, filter_cons.
      destruct (wellFormedRule k); [rewrite decide_True by done
                                   |rewrite decide_False by done]; done.
Qed.

(** X1. The rule table holds one rule for each rule line that has at
    least three fields and a known kind, in the order of the lines: what a
    section made of two parts compiles to is what the first part compiles
    to followed by what the second part compiles to. The rule loop never
    fails. *)
Theorem rule_table_in_document_order (keys1 keys2 : list Key) :
  exists rules1 rules2,
    foldM parseRule [] keys1 = Ok rules1
    /\ foldM parseRule [] keys2 = Ok rules2
    /\ foldM parseRule [] (keys1 ++ keys2) = Ok (rules1 ++ rules2)
    /\ length rules1
       = length (filter (fun k => wellFormedRule k = true) keys1).
Proof.
  destruct (parseRules_appends keys1) as (r1 & H1 & L1).
  destruct (parseRules_appends keys2) as (r2 & H2 & L2).
  exists r1, r2. rewrite foldM_app, !H1. simpl. rewrite H2. done.
Qed.

Lemma compile_inv tr cfg rs ps :
  compile tr cfg = Ok (rs, ps) ->
  exists ps0 ps1,
    foldM (parseProxy tr) ∅ (Keys cfg "Proxy") = Ok ps0
    /\ foldM parseRule [] (Keys cfg "Rule") = Ok rs
    /\ foldM parseGroup ps0 (Keys cfg "Proxy Group") = Ok ps1
    /\ ps = <["REJECT" := PReject NewReject]>
              (<["DIRECT" := PDirect (NewDirect tr)]> ps1).
Proof.
  unfold compile.
  destruct (foldM (parseProxy tr) ∅ (Keys cfg "Proxy")) as [ps0| |] eqn:Hp;
    simpl; try done.
  destruct (foldM parseRule [] (Keys cfg "Rule")) as [rs0| |] eqn:Hr;
    simpl; try done.
  destruct (foldM parseGroup ps0 (Keys cfg "Proxy Group")) as [ps1| |] eqn:Hg;
    simpl; try done.
  intros [= <- <-]. exists ps0, ps1. done.
Qed.

Lemma UpdateConfig_inv getConfig old t t' evs :
  UpdateConfig getConfig old t = (t', evs, Ok tt) ->
  exists cfg,
    getConfig = inl cfg
    /\ compile (traffic t) cfg = Ok (rules t', proxies t')
    /\ traffic t' = traffic t
    /\ evs = [EvLock] ++ stopURLTests old
               ++ [EvSetProxies (proxies t'); EvSetRules (rules t'); EvUnlock].
Proof.
  unfold UpdateConfig. destruct getConfig as [cfg|err]; [|done].
  destruct (compile (traffic t) cfg) as [[rs ps]| |] eqn:Hc; try done.
  intros [= <- <-]. simpl. exists cfg. done.
Qed.

(** X2. The proxy table that a successful [UpdateConfig] installs binds
    no other names than DIRECT, REJECT and the names of keys of the proxy
    and proxy-group sections of the document: no entry of the table it
    replaces is carried over. *)
Theorem new_table_holds_declared_names cfg old t t' evs name :
  UpdateConfig (inl cfg) old t = (t', evs, Ok tt) ->
  is_Some (proxies t' !! name) ->
  name = "DIRECT" \/ name = "REJECT"
  \/ name ∈ map Name (Keys cfg "Proxy")
  \/ name ∈ map Name (Keys cfg "Proxy Group").
Proof.
  intros (cfg' & [= <-] & Hc & _)%UpdateConfig_inv Hname.
  destruct (compile_inv _ _ _ _ Hc) as (ps0 & ps1 & Hp & _ & Hg & Hps).
  rewrite Hps in Hname.
  destruct (decide (name = "REJECT")) as [->|Hr]; [auto|].
  destruct (decide (name = "DIRECT")) as [->|Hd]; [auto|].
  rewrite !lookup_insert_ne in Hname by done.
  destruct (parseGroups_names _ _ _ _ Hg Hname) as [Hin | Hin]; [|auto 6].
  right; right; left. by eapply parseProxies_names.
Qed.

(** X5. Only the first five fields of a proxy line and the first three of
    a rule line are read: two lines of one key name that agree on these
    fields compile alike, whatever follows. For a FINAL rule the second
    field is not read either. *)
Theorem surplus_fields_are_ignored :
  (forall tr ps k k' f0 f1 f2 f3 f4 rest rest',
     Go.Split (Value k) "," = f0 :: f1 :: f2 :: f3 :: f4 :: rest ->
     Go.Split (Value k') "," = f0 :: f1 :: f2 :: f3 :: f4 :: rest' ->
     Name k = Name k' ->
     parseProxy tr ps k = parseProxy tr ps k')
  /\ (forall rs k k' f0 f1 f2 rest rest',
        Go.Split (Name k) "," = f0 :: f1 :: f2 :: rest ->
        Go.Split (Name k') "," = f0 :: f1 :: f2 :: rest' ->
        parseRule rs k = parseRule rs k')
  /\ (forall rs k k' f0 f1 f1' f2 rest rest',
        Go.Split (Name k) "," = f0 :: f1 :: f2 :: rest ->
        Go.Split (Name k') "," = f0 :: f1' :: f2 :: rest' ->
        Go.TrimSpace f0 = "FINAL" ->
        parseRule rs k = parseRule rs k').
Proof.
  split; [|split].
  - intros tr ps k k' f0 f1 f2 f3 f4 rest rest' Hk Hk' Hn.
    unfold parseProxy. rewrite Hk, Hk', Hn. reflexivity.
  - intros rs k k' f0 f1 f2 rest rest' Hk Hk'.
    unfold parseRule. rewrite Hk, Hk'. reflexivity.
  - intros rs k k' f0 f1 f1' f2 rest rest' Hk Hk' Hf.
    by rewrite (parseRule_final rs k _ _ _ _ Hk Hf),
               (parseRule_final rs k' _ _ _ _ Hk' Hf).
Qed.

(** X6. A proxy line whose first field, trimmed, is not exactly [ss] and a
    group line whose first field, trimmed, is not exactly [url-test] are
    passed over without an error, however many fields they have. *)
Theorem unknown_types_are_skipped :
  (forall tr ps k,
     Go.TrimSpace (default "" (head (Go.Split (Value k) ","))) <> "ss" ->
     parseProxy tr ps k = Ok ps)
  /\ (forall ps k,
        Go.TrimSpace (default "" (head (Go.Split (Value k) ",")))
          <> "url-test" ->
        parseGroup ps k = Ok ps).
Proof.
  split.
  - intros tr ps k. unfold parseProxy.
    destruct (Go.Split (Value k) ",") as [|a [|b [|c [|d [|e rest]]]]];
      simpl; try done.
    intros Hne. unfold index; simpl. by rewrite decide_False.
  - intros ps k. unfold parseGroup.
    destruct (Go.Split (Value k) ",") as [|a [|b [|c [|d rest]]]];
      simpl; try done.
    intros Hne. unfold index; simpl. by rewrite decide_False.
Qed.

Lemma foldM_err {A B : Type} (f : A -> B -> result A) (l : list B) (a : A)
    (e : error) :
  foldM f a l = Err e -> exists a' b, b ∈ l /\ f a' b = Err e.
Proof.
  revert a. induction l as [|b l IH]; intros a; simpl; [done|].
  destruct (f a b) as [a1|e1|] eqn:Hb; simpl; try done.
  - intros (a' & b' & Hin & Hf)%IH. exists a', b'. split; [by right|done].
  - intros [= <-]. exists a, b. split; [by left|done].
Qed.

Lemma parseProxy_err tr ps k e :
  parseProxy tr ps k = Err e ->
  exists url, NewShadowSocks (Name k) url tr = inr e.
Proof.
  unfold parseProxy.
  destruct (Go.Split (Value k) ",") as [|a [|b [|c [|d [|e' rest]]]]];
    simpl; try done.
  unfold index; simpl. case_decide; [|done].
  destruct (NewShadowSocks _ _ _) eqn:Hss; [done|]. intros [= <-]. eauto.
Qed.

Lemma parseGroup_err ps k e :
  parseGroup ps k = Err e ->
  exists ms url interval e',
    NewURLTest (Name k) ms url interval = inr e'
    /\ e = "Config error: " +:+ e'.
Proof.
  destruct (Go.Split (Value k) ",") as [|a [|b [|c [|d rest]]]] eqn:Hs;
    try (unfold parseGroup; rewrite Hs; done).
  destruct (last_two_fields a b c d rest) as (names & url & dl & Heq & Hne).
  rewrite Heq in Hs. rewrite (parseGroup_fields ps k _ _ _ _ Hs Hne).
  case_decide; [|done].
  destruct (NewURLTest _ _ _ _) eqn:Hu; [done|]. intros [= <-]. eauto 10.
Qed.

(** X7. An error that [UpdateConfig] returns is the error of
    [C.GetConfig], or the error of [NewShadowSocks] for a key of the proxy
    section, unchanged, or the error of [NewURLTest] for a key of the
    proxy-group section behind the words "Config error: ". The rule
    section is never the cause. *)
Theorem reload_error_provenance getConfig old t t' evs e :
  UpdateConfig getConfig old t = (t', evs, Err e) ->
  getConfig = inr e
  \/ (exists cfg k url,
        getConfig = inl cfg /\ k ∈ Keys cfg "Proxy"
        /\ NewShadowSocks (Name k) url (traffic t) = inr e)
  \/ (exists cfg k ms url interval e',
        getConfig = inl cfg /\ k ∈ Keys cfg "Proxy Group"
        /\ NewURLTest (Name k) ms url interval = inr e'
        /\ e = "Config error: " +:+ e').
Proof.
  unfold UpdateConfig. destruct getConfig as [cfg|err].
  2: { intros [= _ _ <-]. by left. }
  destruct (compile (traffic t) cfg) as [[rs ps]|e1|] eqn:Hc; try done.
  intros [= _ _ <-]. right. unfold compile in Hc.
  destruct (foldM (parseProxy _) _ _) as [ps0|e0|] eqn:Hp; simpl in Hc;
    try done.
  - destruct (parseRules_total (Keys cfg "Rule") []) as [rs Hr].
    rewrite Hr in Hc. simpl in Hc.
    destruct (foldM parseGroup _ _) as [ps1|e2|] eqn:Hg; simpl in Hc;
      try done.
    injection Hc as ->. right.
    destruct (foldM_err _ _ _ _ Hg) as (a' & k & Hin & Hk).
    destruct (parseGroup_err _ _ _ Hk) as (ms & url & i & e' & Hu & ->).
    exists cfg, k, ms, url, i, e'. done.
  - injection Hc as ->. left.
    destruct (foldM_err _ _ _ _ Hp) as (a' & k & Hin & Hk).
    destruct (parseProxy_err _ _ _ _ Hk) as (url & Hu).
    exists cfg, k, url. done.
Qed.

End CompilerExtras.

Lemma fieldCount_commas (s : string) : fieldCount s = S (commas s).
Proof.
  unfold fieldCount. induction s as [|c s IH]; [done|].
  unfold Go.Split; fold Go.Split. simpl commas.
  change (Ascii.eqb c ",") with (Ascii.eqb c ","%char).
  destruct (Ascii.eqb c ","); simpl.
  - by rewrite IH.
  - destruct (Go.Split s ",") as [|f fs]; simpl in *; [done|lia].
Qed.

(** X10. A line has one field more than it has commas, the empty line
    one field. So a proxy line is read only if its value has at least four
    commas, a group line only if its value has at least three, and a rule
    line only if it has at least two and its first field, trimmed, is a
    known kind. *)
Theorem fields_by_commas (k : Key) :
  fieldCount (Value k) = S (commas (Value k))
  /\ (wellFormedProxy k = true <-> (4 <= commas (Value k))%nat)
  /\ (wellFormedGroup k = true <-> (3 <= commas (Value k))%nat)
  /\ (wellFormedRule k = true
      <-> (2 <= commas (Name k))%nat /\ ruleKind k ∈ ruleKinds).
Proof.
  unfold wellFormedProxy, wellFormedGroup, wellFormedRule.
  rewrite !fieldCount_commas.
  split; [done|]. split; [|split].
  - rewrite negb_true_iff, Nat.ltb_ge. lia.
  - rewrite negb_true_iff, Nat.ltb_ge. lia.
  - rewrite andb_true_iff, negb_true_iff, Nat.ltb_ge, bool_decide_eq_true.
    split; intros [? ?]; split; (lia || done).
Qed.

(** ** UpdateConfig: bindings, teardown and series of reloads *)

Section ReloadExtras.
Context `{C : ConstantPkg} `{!RulesPkg} `{T : AdapterTypes} `{!AdaptersPkg}.

Lemma foldM_app_inv {A B : Type} (f : A -> B -> result A) (a r : A)
    (l1 l2 : list B) :
  foldM f a (l1 ++ l2) = Ok r ->
  exists m, foldM f a l1 = Ok m /\ foldM f m l2 = Ok r.
Proof.
  rewrite foldM_app. destruct (foldM f a l1) as [m| |]; simpl; try done.
  intros Hr. by exists m.
Qed.

Lemma parseProxies_other tr keys ps ps' name :
  Forall (fun k => Name k <> name) keys ->
  foldM (parseProxy tr) ps keys = Ok ps' -> ps' !! name = ps !! name.
Proof.
  intros Hall. revert ps. induction Hall as [|k keys Hk _ IH]; intros ps.
  - by intros [= <-].
  - simpl.
    destruct (parseProxy_cases tr ps k) as [-> | [[ss ->] | [e ->]]];
      simpl; try done; [apply IH|].
    intros ->%IH. by rewrite lookup_insert_ne.
Qed.

Lemma parseGroups_other keys ps ps' name :
  Forall (fun k => Name k <> name) keys ->
  foldM parseGroup ps keys = Ok ps' -> ps' !! name = ps !! name.
Proof.
  intros Hall. revert ps. induction Hall as [|k keys Hk _ IH]; intros ps.
  - by intros [= <-].
  - simpl.
    destruct (parseGroup_cases ps k) as [-> | [[u ->] | [e ->]]];
      simpl; try done; [apply IH|].
    intros ->%IH. by rewrite lookup_insert_ne.
Qed.

Lemma parseProxy_ss tr ps k f0 f1 f2 f3 f4 rest :
  Go.Split (Value k) "," = f0 :: f1 :: f2 :: f3 :: f4 :: rest ->
  Go.TrimSpace f0 = "ss" ->
  parseProxy tr ps k =
    match NewShadowSocks (Name k)
            (ssURL (Go.TrimSpace f3) (Go.TrimSpace f4) (Go.TrimSpace f1)
               (Go.TrimSpace f2)) tr with
    | inr err => Err err
    | inl ss => Ok (<[Name k := PShadowSocks ss]> ps)
    end.
Proof.
  intros Hs Hf. unfold parseProxy. rewrite Hs. simpl.
  unfold index; simpl. by rewrite decide_True.
Qed.

(** X3. After a successful [UpdateConfig], a Shadowsocks line of the
    proxy section is reachable under its key name, bound to the proxy
    that [NewShadowSocks] built from the URL
    [ss://cipher:password@server:port] of its trimmed fields, provided no
    later proxy line and no group line has the same key name and the name
    is not a reserved one. *)
Theorem declared_proxy_is_bound cfg old t t' evs pre k post
    f0 f1 f2 f3 f4 rest ss :
  UpdateConfig (inl cfg) old t = (t', evs, Ok tt) ->
  Keys cfg "Proxy" = pre ++ k :: post ->
  Go.Split (Value k) "," = f0 :: f1 :: f2 :: f3 :: f4 :: rest ->
  Go.TrimSpace f0 = "ss" ->
  NewShadowSocks (Name k)
    (ssURL (Go.TrimSpace f3) (Go.TrimSpace f4) (Go.TrimSpace f1)
       (Go.TrimSpace f2)) (traffic t) = inl ss ->
  Forall (fun k' => Name k' <> Name k) post ->
  Forall (fun k' => Name k' <> Name k) (Keys cfg "Proxy Group") ->
  Name k <> "DIRECT" -> Name k <> "REJECT" ->
  proxies t' !! Name k = Some (PShadowSocks ss).
Proof.
  intros (cfg' & [= <-] & Hc & _)%UpdateConfig_inv Hkeys Hs Hf Hss
         Hpost Hgroups Hd Hr.
  destruct (compile_inv _ _ _ _ Hc) as (ps0 & ps1 & Hp & _ & Hg & ->).
  rewrite !lookup_insert_ne by done.
  rewrite (parseGroups_other _ _ _ _ Hgroups Hg).
  rewrite Hkeys in Hp.
  apply foldM_app_inv in Hp as (m & _ & Hp). simpl in Hp.
  rewrite (parseProxy_ss _ _ _ _ _ _ _ _ _ Hs Hf), Hss in Hp. simpl in Hp.
  rewrite (parseProxies_other _ _ _ _ _ Hpost Hp).
  apply lookup_insert_eq.
Qed.

(** X4. After a successful [UpdateConfig], a url-test line of the group
    section is reachable under its key name, bound to the group that
    [NewURLTest] built, provided no later group line has the same key name
    and the name is not a reserved one. A proxy declared under the same
    name in the proxy section is replaced by the group. *)
Theorem declared_group_is_bound cfg old t t' evs ps0 pre ps k post
    g0 names url d u :
  UpdateConfig (inl cfg) old t = (t', evs, Ok tt) ->
  foldM (parseProxy (traffic t)) ∅ (Keys cfg "Proxy") = Ok ps0 ->
  Keys cfg "Proxy Group" = pre ++ k :: post ->
  foldM parseGroup ps0 pre = Ok ps ->
  Go.Split (Value k) "," = g0 :: names ++ [url; d] ->
  names <> [] ->
  Go.TrimSpace g0 = "url-test" ->
  NewURLTest (Name k) (members ps (trimArr names)) (Go.TrimSpace url)
    (Go.Seconds (Go.Atoi (Go.TrimSpace d))) = inl u ->
  Forall (fun k' => Name k' <> Name k) post ->
  Name k <> "DIRECT" -> Name k <> "REJECT" ->
  proxies t' !! Name k = Some (PURLTest u).
Proof.
  intros (cfg' & [= <-] & Hc & _)%UpdateConfig_inv Hps0 Hkeys Hpre Hs Hne Hk
         Hu Hpost Hd Hr.
  destruct (compile_inv _ _ _ _ Hc) as (ps0' & ps1 & Hp & _ & Hg & ->).
  rewrite Hps0 in Hp. injection Hp as <-.
  rewrite !lookup_insert_ne by done.
  rewrite Hkeys, foldM_app, Hpre in Hg. simpl in Hg.
  rewrite (parseGroup_fields ps k _ _ _ _ Hs Hne) in Hg.
  rewrite decide_True, Hu in Hg by done. simpl in Hg.
  rewrite (parseGroups_other _ _ _ _ Hpost Hg).
  apply lookup_insert_eq.
Qed.

Lemma stopURLTests_omap (old : list (string * Proxy)) :
  stopURLTests old = omap closeOf old.
Proof.
  induction old as [|[n p] old IH]; [done|].
  destruct p; simpl; unfold closeOf at 1; simpl; by rewrite ?IH.
Qed.

(** X8. A successful [UpdateConfig] calls [Close] once for each entry of
    the old table that holds a URL-test group, in whatever order the range
    visits the entries: the calls are, up to their order, the groups of
    the old table's entries. *)
Theorem each_group_closed_once getConfig old t t' evs :
  old ≡ₚ map_to_list (proxies t) ->
  UpdateConfig getConfig old t = (t', evs, Ok tt) ->
  exists closes,
    evs = [EvLock] ++ closes
            ++ [EvSetProxies (proxies t'); EvSetRules (rules t'); EvUnlock]
    /\ closes ≡ₚ omap closeOf (map_to_list (proxies t)).
Proof.
  intros Hold (cfg & _ & _ & _ & ->)%UpdateConfig_inv.
  exists (stopURLTests old). split; [done|].
  by rewrite stopURLTests_omap, Hold.
Qed.

(** What one call leaves of the reserved names. *)
Lemma UpdateConfig_reserved getConfig old t :
  traffic (fst (fst (UpdateConfig getConfig old t))) = traffic t
  /\ (snd (UpdateConfig getConfig old t) = Ok tt
      \/ (proxies t !! "DIRECT" = Some (PDirect (NewDirect (traffic t)))
          /\ proxies t !! "REJECT" = Some (PReject NewReject)) ->
      proxies (fst (fst (UpdateConfig getConfig old t))) !! "DIRECT"
        = Some (PDirect (NewDirect (traffic t)))
      /\ proxies (fst (fst (UpdateConfig getConfig old t))) !! "REJECT"
         = Some (PReject NewReject)).
Proof.
  unfold UpdateConfig. destruct getConfig as [cfg|err].
  2: { simpl. split; [done|]. by intros [? | ?]. }
  destruct (compile (traffic t) cfg) as [[rs ps]| |] eqn:Hc; simpl.
  - split; [done|]. intros _.
    destruct (compile_inv _ _ _ _ Hc) as (ps0 & ps1 & _ & _ & _ & ->).
    split; [rewrite lookup_insert_ne by done|]; apply lookup_insert_eq.
  - split; [done|]. by intros [? | ?].
  - split; [done|]. by intros [? | ?].
Qed.

Lemma reloads_reserved calls t :
  proxies t !! "DIRECT" = Some (PDirect (NewDirect (traffic t))) ->
  proxies t !! "REJECT" = Some (PReject NewReject) ->
  traffic (reloads calls t) = traffic t
  /\ proxies (reloads calls t) !! "DIRECT"
     = Some (PDirect (NewDirect (traffic t)))
  /\ proxies (reloads calls t) !! "REJECT" = Some (PReject NewReject).
Proof.
  revert t. induction calls as [|[g old] calls IH]; intros t Hd Hr; [done|].
  simpl. destruct (UpdateConfig_reserved g old t) as (Htr & Hres).
  destruct Hres as (Hd' & Hr'); [by right|].
  rewrite <- Htr in Hd'.
  destruct (IH _ Hd' Hr') as (H1 & H2 & H3).
  rewrite Htr in H1, H2. done.
Qed.

Lemma reloads_app calls1 calls2 t :
  reloads (calls1 ++ calls2) t = reloads calls2 (reloads calls1 t).
Proof.
  revert t. induction calls1 as [|[g old] calls1 IH]; intros t; [done|].
  simpl. apply IH.
Qed.

Lemma match_not_nil t addr :
  is_Some (proxies t !! "DIRECT") -> is_Some (snd (match_ t addr)).
Proof.
  intros Hd. rewrite match_snd, matchRules_find.
  destruct (List.find _ _) as [rule|] eqn:Hf; [|done].
  apply find_some in Hf as [_ Hu]. unfold usable in Hu.
  apply andb_true_iff in Hu as [_ Hu]. by apply bool_decide_eq_true_1 in Hu.
Qed.

(** X9. Once a call of [UpdateConfig] has returned nil, the proxy table
    binds DIRECT and REJECT to the built-in proxies after every later
    call, whether that one fails or succeeds, and [match] returns a proxy
    that is not nil for every address. *)
Theorem reserved_names_survive_reloads t pre getConfig old post addr :
  snd (UpdateConfig getConfig old (reloads pre t)) = Ok tt ->
  proxies (reloads (pre ++ (getConfig, old) :: post) t) !! "DIRECT"
    = Some (PDirect (NewDirect (traffic (reloads pre t))))
  /\ proxies (reloads (pre ++ (getConfig, old) :: post) t) !! "REJECT"
     = Some (PReject NewReject)
  /\ is_Some (snd (match_ (reloads (pre ++ (getConfig, old) :: post) t) addr)).
Proof.
  intros Hok. rewrite reloads_app. simpl.
  destruct (UpdateConfig_reserved getConfig old (reloads pre t))
    as (Htr & Hres).
  destruct Hres as (Hd & Hr); [by left|].
  rewrite <- Htr in Hd.
  destruct (reloads_reserved post _ Hd Hr) as (H1 & H2 & H3).
  rewrite Htr in H2.
  split; [done|]. split; [done|]. apply match_not_nil. by rewrite H2.
Qed.

Lemma reloads_failing calls t :
  Forall (fun call => snd (UpdateConfig (fst call) (snd call) t) <> Ok tt)
    calls ->
  reloads calls t = t.
Proof.
  induction 1 as [|[g old] calls Hc _ IH]; [done|]. simpl in *.
  unfold UpdateConfig in *. destruct g as [cfg|err]; [|done].
  destruct (compile (traffic t) cfg) as [[rs ps]| |]; done.
Qed.

(** X13. Until a call of [UpdateConfig] returns nil, the tunnel that
    [newTunnel] made has no rule and no proxy, not even DIRECT: [match]
    returns nil for every address, and [handleConn] logs that no rule
    matched, calls no proxy, closes the local connection and panics. *)
Theorem new_tunnel_has_no_proxy tr calls net localConn :
  Forall (fun call =>
            snd (UpdateConfig (fst call) (snd call) (newTunnel tr)) <> Ok tt)
    calls ->
  reloads calls (newTunnel tr) = newTunnel tr
  /\ (forall addr, snd (match_ (reloads calls (newTunnel tr)) addr) = None)
  /\ handleConn net (reloads calls (newTunnel tr)) localConn
     = ([EvRLock; EvLog (noMatchLog (ServerAdapter_Addr localConn));
         EvRUnlock; EvLocalClose localConn],
        Panicked).
Proof.
  intros ->%reloads_failing. done.
Qed.

(** X14. [handleConn] holds the shared lock only while it matches: its
    trace begins with [RLock], one log event and [RUnlock], and whatever
    follows, the calls into the network among it, has no lock event. *)
Theorem handleConn_unlocks_before_connecting net t localConn :
  exists l rest,
    fst (handleConn net t localConn) = [EvRLock; EvLog l; EvRUnlock] ++ rest
    /\ List.filter isLockEvent rest = []
    /\ List.filter isNetworkEvent (fst (handleConn net t localConn))
       = List.filter isNetworkEvent rest.
Proof.
  unfold handleConn.
  destruct (match_events t (ServerAdapter_Addr localConn)) as [l Hl].
  destruct (match_ t (ServerAdapter_Addr localConn)) as [mevs proxy].
  simpl in Hl. subst mevs. exists l.
  destruct proxy as [proxy|]; [|by eexists].
  destruct (Generator net proxy (ServerAdapter_Addr localConn));
    by eexists.
Qed.

(** X15. With DIRECT in the proxy table, [handleConn] panics only if the
    proxy's connect or the relay does: when neither panics it returns. *)
Theorem handleConn_returns net t localConn :
  is_Some (proxies t !! "DIRECT") ->
  (forall proxy addr, Generator net proxy addr <> Panic) ->
  (forall remoteConn, Connect_panics net localConn remoteConn = false) ->
  snd (handleConn net t localConn) = Returned.
Proof.
  intros Hd Hgen Hrelay. unfold handleConn.
  pose proof (match_not_nil t (ServerAdapter_Addr localConn) Hd) as [p Hp].
  destruct (match_ t (ServerAdapter_Addr localConn)) as [mevs proxy].
  simpl in Hp. subst proxy.
  specialize (Hgen p (ServerAdapter_Addr localConn)).
  destruct (Generator net p (ServerAdapter_Addr localConn)); simpl;
    [by rewrite Hrelay | done | done].
Qed.

Lemma matchRules_log t addr rs :
  fst (matchRules t addr rs) =
    [EvLog match List.find (usable t addr) rs with
           | Some rule => matchLog addr rule
           | None => noMatchLog addr
           end].
Proof.
  induction rs as [|rule rs IH]; simpl; [done|].
  unfold usable at 1. destruct (IsMatch rule addr); simpl; [|done].
  destruct (proxies t !! Adapter rule) as [proxy|] eqn:Hp.
  - by rewrite bool_decide_eq_true_2 by eauto.
  - by rewrite bool_decide_eq_false_2 by (by intros [? ?]).
Qed.

(** X12. [match] sends exactly one log event, while it holds the shared
    lock. When some rule matches the address and names a proxy of the
    table, the event names the first such rule, the one whose proxy is
    returned, be that proxy DIRECT or any other. When no rule does, the
    event says that no rule matched: also when rules did match but named
    proxies that the table lacks. A proxy returned is an entry of the
    proxy table. *)
Theorem match_logs_the_rule_used t addr :
  fst (match_ t addr) =
    [EvRLock;
     EvLog match List.find (usable t addr) (rules t) with
           | Some rule => matchLog addr rule
           | None => noMatchLog addr
           end;
     EvRUnlock]
  /\ snd (match_ t addr) =
       match List.find (usable t addr) (rules t) with
       | Some rule => proxies t !! Adapter rule
       | None => proxies t !! "DIRECT"
       end
  /\ (forall proxy, snd (match_ t addr) = Some proxy ->
        exists name, proxies t !! name = Some proxy).
Proof.
  split; [|split].
  - unfold match_. pose proof (matchRules_log t addr (rules t)) as Hl.
    destruct (matchRules t addr (rules t)) as [evs proxy]. simpl in *.
    by rewrite Hl.
  - by rewrite match_snd, matchRules_find.
  - intros proxy. rewrite match_snd, matchRules_find.
    destruct (List.find _ _) as [rule|]; eauto.
Qed.

End ReloadExtras.

(** ** trimArr *)

Lemma strip_prefix_app (p l l' : list ascii) :
  Go.strip_prefix p l = Some l' -> l = p ++ l'.
Proof.
  revert l. induction p as [|x p IH]; intros [|y l]; simpl; try done.
  - by intros [= <-].
  - by intros [= <-].
  - destruct (Ascii.eqb x y) eqn:Hxy; [|done].
    apply Ascii.eqb_eq in Hxy as ->. by intros ->%IH.
Qed.

Lemma strip_prefix_longer (p l l' z : list ascii) :
  Go.strip_prefix p l = Some l' -> Go.strip_prefix p (l ++ z) = Some (l' ++ z).
Proof.
  revert l. induction p as [|x p IH]; intros [|y l]; simpl; try done.
  - by intros [= <-].
  - by intros [= <-].
  - destruct (Ascii.eqb x y); [apply IH|done].
Qed.

Lemma strip_any_app (ps : list (list ascii)) (l l' : list ascii) :
  Go.strip_any ps l = Some l' -> exists p, p ∈ ps /\ l = p ++ l'.
Proof.
  induction ps as [|p ps IH]; simpl; [done|].
  destruct (Go.strip_prefix p l) as [r|] eqn:Hp.
  - intros [= <-]. exists p. split; [by left|by apply strip_prefix_app].
  - intros (q & Hq & ->)%IH. exists q. split; [by right|done].
Qed.

(** What has no white space in front has none after bytes are taken off
    its end. *)
Lemma strip_any_prefix (ps : list (list ascii)) (l z : list ascii) :
  Go.strip_any ps (l ++ z) = None -> Go.strip_any ps l = None.
Proof.
  induction ps as [|p ps IH]; simpl; [done|].
  destruct (Go.strip_prefix p l) as [r|] eqn:Hp.
  - by rewrite (strip_prefix_longer _ _ _ z Hp).
  - destruct (Go.strip_prefix p (l ++ z)); [done|apply IH].
Qed.

Lemma trim_front_fixed (ps : list (list ascii)) (n : nat) (l : list ascii) :
  Go.strip_any ps l = None -> Go.trim_front ps n l = l.
Proof. intros Hl. destruct n; simpl; [done|]. by rewrite Hl. Qed.

Lemma trim_front_done (ps : list (list ascii)) (n : nat) (l : list ascii) :
  Forall (fun p => p <> []) ps -> (length l <= n)%nat ->
  Go.strip_any ps (Go.trim_front ps n l) = None.
Proof.
  intros Hps. revert l. induction n as [|n IH]; intros l Hn; simpl.
  - destruct l; [|simpl in Hn; lia].
    clear Hn. induction Hps as [|p ps Hp _ IHps]; simpl; [done|].
    by destruct p.
  - destruct (Go.strip_any ps l) as [l'|] eqn:Hl; [|done].
    apply IH. destruct (strip_any_app _ _ _ Hl) as (p & Hin & ->).
    rewrite Forall_forall in Hps. specialize (Hps p Hin).
    rewrite length_app in Hn. destruct p; [done|]. simpl in Hn. lia.
Qed.

Lemma trim_front_suffix (ps : list (list ascii)) (n : nat) (l : list ascii) :
  exists pre, l = pre ++ Go.trim_front ps n l.
Proof.
  revert l. induction n as [|n IH]; intros l; simpl; [by exists []|].
  destruct (Go.strip_any ps l) as [l'|] eqn:Hl; [|by exists []].
  destruct (strip_any_app _ _ _ Hl) as (p & _ & ->).
  destruct (IH l') as (pre & Hpre). exists (p ++ pre).
  by rewrite <- app_assoc, <- Hpre.
Qed.

Lemma space_runes_nonempty :
  Forall (fun p => p <> []) Go.space_runes
  /\ Forall (fun p => p <> []) (map (@rev ascii) Go.space_runes).
Proof. split; cbv; repeat (constructor; [discriminate|]); constructor. Qed.

Lemma TrimSpace_idempotent (s : string) :
  Go.TrimSpace (Go.TrimSpace s) = Go.TrimSpace s.
Proof.
  destruct space_runes_nonempty as [Hl Hr].
  unfold Go.TrimSpace. rewrite list_ascii_of_string_of_list_ascii.
  set (x := Go.TrimLeftSpace (list_ascii_of_string s)).
  set (y := Go.TrimRightSpace x).
  assert (Go.strip_any Go.space_runes x = None) as Hx
    by (apply trim_front_done; [done|lia]).
  assert (Go.strip_any (map (@rev ascii) Go.space_runes) (rev y) = None)
    as Hy.
  { subst y. unfold Go.TrimRightSpace. rewrite rev_involutive.
    apply trim_front_done; [done|]. by rewrite length_rev. }
  assert (Go.strip_any Go.space_runes y = None) as Hy'.
  { destruct (trim_front_suffix (map (@rev ascii) Go.space_runes)
                (length x) (rev x)) as (pre & Hpre).
    apply (strip_any_prefix _ y (rev pre)).
    replace (y ++ rev pre) with x; [done|].
    rewrite <- (rev_involutive x), Hpre, rev_app_distr. done. }
  f_equal.
  assert (Go.TrimLeftSpace y = y) as ->
    by (by apply trim_front_fixed).
  unfold Go.TrimRightSpace at 1.
  rewrite trim_front_fixed by done. apply rev_involutive.
Qed.

(** X11. [trimArr] trims every element where it stands and changes
    nothing else: the array keeps its length, so the field counts checked
    before trimming still hold after it, and trimming a trimmed array
    leaves it as it is. *)
Theorem trimArr_in_place (arr : list string) :
  length (trimArr arr) = length arr
  /\ (forall i, trimArr arr !! i = Go.TrimSpace <$> arr !! i)
  /\ trimArr (trimArr arr) = trimArr arr.
Proof.
  unfold trimArr. split; [apply length_map|]. split.
  - intros i. apply list_lookup_fmap.
  - rewrite map_map. apply map_ext. intros s. apply TrimSpace_idempotent.
Qed.

(** ** Concurrent runs: the lock *)

Section LockExtras.
Context `{C : ConstantPkg} `{!RulesPkg} `{T : AdapterTypes} `{!AdaptersPkg}.

(** X16. In every state that interleaved calls of [UpdateConfig] and
    [match] can reach, [configLock] counts its holders: the number of
    readers it records is the number of goroutines between [RLock] and
    [RUnlock], at most one goroutine is between [Lock] and [Unlock], it is
    there exactly when the lock is held for writing, and then no goroutine
    is between [RLock] and [RUnlock]. *)
Theorem lock_counts_its_holders t n st :
  reachable t n st ->
  count reading (snd st) = readers (fst st)
  /\ count writing (snd st) = (if writer (fst st) then 1 else 0)%nat
  /\ (forall i j wr rd,
        snd st !! i = Some wr -> writing wr = true ->
        snd st !! j = Some rd -> reading rd = true -> False)
  /\ (forall i j th th',
        snd st !! i = Some th -> writing th = true ->
        snd st !! j = Some th' -> writing th' = true -> i = j).
Proof.
  intros (Hobs & Hr & Hw & Hex & Hgen & Hpool)%reachable_consistent.
  split; [done|]. split; [done|]. split.
  - intros i j wr rd Hi Hwr Hj Hrd.
    pose proof (count_some writing _ i wr Hi Hwr).
    pose proof (count_some reading _ j rd Hj Hrd).
    destruct (writer (fst st)); [specialize (Hex eq_refl)|]; lia.
  - intros i j th th' Hi Hth Hj Hth'.
    destruct (decide (i = j)) as [|Hij]; [done|]. exfalso.
    pose proof (count_some writing _ i th Hi Hth).
    assert (count writing (snd st) = 1%nat) as Hone
      by (destruct (writer (fst st)); lia).
    assert (j <> i) as Hji by congruence.
    rewrite (count_one writing _ i j th th' eq_refl Hone Hi Hth Hji Hj)
      in Hth'.
    done.
Qed.

(** X17. While some goroutine is between [RLock] and [RUnlock], no step
    of any goroutine changes the rule table or the proxy table: a [match]
    works on the same two tables from its first read to its last. *)
Theorem tables_fixed_while_reading t n st st' i th :
  reachable t n st ->
  snd st !! i = Some th -> reading th = true ->
  step st st' ->
  tun (fst st') = tun (fst st).
Proof.
  intros (Hobs & Hr & Hw & Hex & Hgen & Hpool)%reachable_consistent
         Hi Hrd Hstep.
  pose proof (count_some reading _ i th Hi Hrd) as Hpos.
  destruct Hstep as [j s s' th0 th1 pool Hj Ht]. simpl in *.
  assert (writing th0 = true -> False) as Hnw.
  { intros Hw0. pose proof (count_some writing _ j th0 Hj Hw0).
    destruct (writer s); [specialize (Hex eq_refl)|]; lia. }
  destruct Ht; simpl; try done; exfalso; by apply Hnw.
Qed.

End LockExtras.

(** ** The log stream: responses *)

Section LogStreamExtras.
Context `{!LogPkg}.

Lemma stream_shape encode level sub :
  Forall (fun h => match h with Encode _ | Flush => True | _ => False end)
    (stream encode level sub).
Proof.
  induction sub as [|log sub IH]; simpl; [constructor|].
  destruct (_ >? _); [done|].
  destruct (encode (entryOf log)); [constructor|].
  by repeat constructor.
Qed.

Lemma last_two {A : Type} (l : list A) (x y : A) :
  last (l ++ [x; y]) = Some y.
Proof.
  induction l as [|a l IH]; [done|]. destruct l; [done|]. exact IH.
Qed.

Lemma stream_no_control encode level sub h :
  h ∈ stream encode level sub ->
  h <> Subscribed /\ h <> UnSubscribed /\ h <> BodyClosed
  /\ forall message code, h <> HttpError message code.
Proof.
  intros Hin. pose proof (stream_shape encode level sub) as Hs.
  rewrite Forall_forall in Hs. specialize (Hs h Hin). by destruct h.
Qed.

(** X18. [logsHandler] closes the request body last on every path. It
    subscribes to the log bus exactly when the body has decoded, the level
    is recognized and the bus accepts; and whenever it has subscribed it
    unsubscribes once, after everything it writes and before it closes
    the body, also when the response writer cannot flush. *)
Theorem logsHandler_releases_what_it_takes decoded subscribe flusher encode :
  last (logsHandler decoded subscribe flusher encode) = Some BodyClosed
  /\ (Subscribed ∈ logsHandler decoded subscribe flusher encode
      <-> exists req sub,
            decoded = inl req /\ subscribe = inl sub
            /\ is_Some (levelMapping
                          !! (if decide (Level req = "") then "info"
                              else Level req)))
  /\ (Subscribed ∈ logsHandler decoded subscribe flusher encode ->
      exists body,
        logsHandler decoded subscribe flusher encode
        = Subscribed :: body ++ [UnSubscribed; BodyClosed]
        /\ (Subscribed ∉ body) /\ (UnSubscribed ∉ body))
  /\ (Subscribed ∉ logsHandler decoded subscribe flusher encode ->
      UnSubscribed ∉ logsHandler decoded subscribe flusher encode).
Proof.
  unfold logsHandler. destruct decoded as [req|err]; simpl.
  2: { split; [done|]. split; [|split].
       - split; [rewrite !elem_of_cons, elem_of_nil; by intros [|[|]]
                |by intros (? & ? & [=] & _)].
       - rewrite !elem_of_cons, elem_of_nil. by intros [|[|]].
       - rewrite !elem_of_cons, elem_of_nil. rewrite !elem_of_nil; by intros _ [|[|]]. }
  destruct (levelMapping !! _) as [level|] eqn:Hl.
  2: { split; [done|]. split; [|split].
       - split; [rewrite !elem_of_cons, elem_of_nil; by intros [|[|]]
                |intros (? & ? & [= <-] & _ & Hs); rewrite Hl in Hs;
                 by destruct Hs].
       - rewrite !elem_of_cons, elem_of_nil. by intros [|[|]].
       - rewrite !elem_of_cons, elem_of_nil. rewrite !elem_of_nil; by intros _ [|[|]]. }
  destruct subscribe as [sub|err].
  2: { split; [done|]. split; [|split].
       - split; [rewrite !elem_of_cons, elem_of_nil; by intros [|[|]]
                |by intros (? & ? & _ & [=] & _)].
       - rewrite !elem_of_cons, elem_of_nil. by intros [|[|]].
       - rewrite !elem_of_cons, elem_of_nil. rewrite !elem_of_nil; by intros _ [|[|]]. }
  split.
  { apply (last_two (Subscribed :: SetHeader _ _ :: _)). }
  split; [split; [intros _; exists req, sub; rewrite Hl; eauto
                 |intros _; by left]|].
  split; [|intros Hn; exfalso; apply Hn; by left].
  intros _.
  exists (SetHeader "Content-Type" "application/json"
            :: (if flusher then stream encode level sub
                else [HttpError "Streaming not supported"
                        StatusInternalServerError])).
  split; [reflexivity|].
  destruct flusher; simpl.
  - split; rewrite elem_of_cons; intros [[=] | Hin];
      by destruct (stream_no_control _ _ _ _ Hin) as (? & ? & _).
  - split; rewrite !elem_of_cons, elem_of_nil; by intros [|[|]].
Qed.



(** X20. The smaller the integer of the level asked for, the fewer
    events pass: what the loop writes for a level is, in the same order,
    part of what it writes for any level with a greater or equal
    integer. *)
Theorem stream_shrinks_with_level (level1 level2 : LogLevel) (sub : list Log) :
  LogLevel_int level1 <= LogLevel_int level2 ->
  delivered (stream (fun _ => None) level1 sub)
    `sublist_of` delivered (stream (fun _ => None) level2 sub).
Proof.
  intros Hle. induction sub as [|log sub IH]; simpl; [done|].
  destruct (LogLevel_int (Log_LogLevel log) >? LogLevel_int level1) eqn:H1;
    destruct (LogLevel_int (Log_LogLevel log) >? LogLevel_int level2) eqn:H2;
    unfold delivered in *; simpl.
  - done.
  - by apply sublist_cons.
  - exfalso. rewrite Z.gtb_ltb in H1, H2.
    apply Z.ltb_ge in H1. apply Z.ltb_lt in H2. lia.
  - by apply sublist_skip.
Qed.

(** X21. The errors [logsHandler] reports, each the only content of its
    response besides the bookkeeping: status 400 "Invalid request payload"
    when the body does not decode and 400 "Invalid log level" when the
    level looked up is not in [levelMapping], both without subscribing;
    500 "Unable to subscribe to logs" when the bus refuses; and 500
    "Streaming not supported", between subscribing and unsubscribing, when
    the writer cannot flush. A response that holds an error is one of
    these four, and carries no log entry. *)
Theorem error_responses_carry_no_entries decoded subscribe flusher encode :
  (forall err,
     decoded = inr err ->
     logsHandler decoded subscribe flusher encode
     = [HttpError "Invalid request payload" 400; BodyClosed])
  /\ (forall req,
        decoded = inl req -> levelMapping !! levelOf req = None ->
        logsHandler decoded subscribe flusher encode
        = [HttpError "Invalid log level" 400; BodyClosed])
  /\ (forall req level err,
        decoded = inl req -> levelMapping !! levelOf req = Some level ->
        subscribe = inr err ->
        logsHandler decoded subscribe flusher encode
        = [HttpError "Unable to subscribe to logs" 500; BodyClosed])
  /\ (forall req level sub,
        decoded = inl req -> levelMapping !! levelOf req = Some level ->
        subscribe = inl sub -> flusher = false ->
        logsHandler decoded subscribe flusher encode
        = [Subscribed; SetHeader "Content-Type" "application/json";
           HttpError "Streaming not supported" 500;
           UnSubscribed; BodyClosed])
  /\ (forall message code,
        HttpError message code
          ∈ logsHandler decoded subscribe flusher encode ->
        delivered (logsHandler decoded subscribe flusher encode) = []
        /\ ((exists err, decoded = inr err)
            \/ (exists req,
                  decoded = inl req /\ levelMapping !! levelOf req = None)
            \/ (exists req level err,
                  decoded = inl req
                  /\ levelMapping !! levelOf req = Some level
                  /\ subscribe = inr err)
            \/ (exists req level sub,
                  decoded = inl req
                  /\ levelMapping !! levelOf req = Some level
                  /\ subscribe = inl sub /\ flusher = false))).
Proof.
  split; [by intros err ->|].
  split.
  { intros req -> Hl. unfold logsHandler. fold (levelOf req). by rewrite Hl. }
  split.
  { intros req level err -> Hl ->. unfold logsHandler. fold (levelOf req).
    by rewrite Hl. }
  split.
  { intros req level sub -> Hl -> ->. unfold logsHandler.
    fold (levelOf req). by rewrite Hl. }
  intros message code. unfold logsHandler.
  destruct decoded as [req|err]; [|intros _; split; [done|eauto]].
  fold (levelOf req).
  destruct (levelMapping !! levelOf req) as [level|] eqn:Hl;
    [|intros _; split; [done|eauto 6]].
  destruct subscribe as [sub|err]; [|intros _; split; [done|eauto 10]].
  destruct flusher; [|intros _; split; [done|eauto 12]].
  rewrite !elem_of_app, !elem_of_cons, !elem_of_nil.
  intros [[|[|]]|[Hin|[|[|]]]]; try done.
  destruct (stream_no_control _ _ _ _ Hin) as (_ & _ & _ & Hne).
  by destruct (Hne message code).
Qed.

End LogStreamExtras.

(** ** The traffic stream *)

Section TrafficExtras.
Import HubTraffic.


Lemma ticks_spec encode samples :
  written (fst (ticks encode samples))
    = map sampleOf (encodable encode samples)
  /\ (snd (ticks encode samples) = true
      <-> encodable encode samples <> samples)
  /\ (TickerStop ∉ fst (ticks encode samples))
  /\ (forall message code, HttpError message code ∉ fst (ticks encode samples)).
Proof.
  induction samples as [|[up down] samples (IH1 & IH2 & IH3 & IH4)]; simpl.
  - split; [done|]. split; [split; [done|intros Hn; by destruct Hn]|].
    split; [|intros ? ?]; apply not_elem_of_nil.
  - change (sampleOf (up, down)) with {| Up := up; Down := down |}.
    destruct (encode {| Up := up; Down := down |}) eqn:He; simpl.
    + split; [done|]. split; [split; done|].
      split; [|intros ? ?]; rewrite elem_of_cons, elem_of_nil; by intros [|].
    + destruct (ticks encode samples) as [evs broke]. simpl in *.
      split; [unfold written in *; simpl; by rewrite IH1|].
      split.
      * rewrite IH2. split; [congruence|].
        intros Hne Heq. apply Hne. by rewrite Heq.
      * split.
        -- rewrite !elem_of_cons. by intros [|[|Hin]].
        -- intros message code. rewrite !elem_of_cons.
           intros [|[|Hin]]; try done. by eapply IH4.
Qed.



(** X24. [trafficHandler] sets the content type and writes status 200
    before anything else, also when it then finds that the writer cannot
    flush: the error "Streaming not supported" with status 500 comes after
    the header with status 200 has been written, and is the only case in
    which the handler reports an error. *)
Theorem traffic_status_is_written_first flusher samples encode :
  exists rest,
    fst (trafficHandler flusher samples encode)
    = [SetHeader "Content-Type" "application/json"; WriteHeader 200;
       NewTicker] ++ rest
    /\ (flusher = false ->
        rest = [HttpError "Streaming not supported" 500; TickerStop])
    /\ (flusher = true -> forall message code, HttpError message code ∉ rest).
Proof.
  unfold trafficHandler. destruct flusher.
  - destruct (ticks_spec encode samples) as (_ & _ & _ & Hn).
    destruct (ticks encode samples) as [evs broke]. simpl in *.
    eexists. split; [reflexivity|]. split; [done|].
    intros _ message code. rewrite elem_of_app. intros [Hin|Hin].
    + by eapply Hn.
    + destruct broke; [rewrite elem_of_cons, elem_of_nil in Hin; by destruct Hin
                      |by rewrite elem_of_nil in Hin].
  - eexists. split; [reflexivity|]. split; done.
Qed.

End TrafficExtras.

(** ** The further properties on the reference implementation *)

Module RunExtras.
Import Ref RefLog RefRun RefExtra.

Lemma new_table_holds_declared_names_witness :
  "PROXY1" = "DIRECT" \/ "PROXY1" = "REJECT"
  \/ "PROXY1" ∈ map Name (Keys sample "Proxy")
  \/ "PROXY1" ∈ map Name (Keys sample "Proxy Group").
Proof.
  apply (new_table_holds_declared_names sample [] empty
           (fst (fst (UpdateConfig (inl sample) [] empty)))
           (snd (fst (UpdateConfig (inl sample) [] empty)))).
  - vm_compute. reflexivity.
  - vm_compute. eexists. reflexivity.
Defined.

Lemma declared_proxy_is_bound_witness :
  proxies (fst (fst (UpdateConfig (inl sample) [] empty))) !! "PROXY1"
  = Some proxy1.
Proof.
  refine (declared_proxy_is_bound sample [] empty
            (fst (fst (UpdateConfig (inl sample) [] empty)))
            (snd (fst (UpdateConfig (inl sample) [] empty)))
            [] (key "PROXY1" "ss, 1.2.3.4, 8388, aes-256-gcm, pass") []
            "ss" " 1.2.3.4" " 8388" " aes-256-gcm" " pass" [] _
            _ _ _ _ _ _ _ _ _).
  - vm_compute. reflexivity.
  - vm_compute. reflexivity.
  - reflexivity.
  - vm_compute. reflexivity.
  - vm_compute. reflexivity.
  - constructor.
  - vm_compute. repeat constructor. discriminate.
  - discriminate.
  - discriminate.
Defined.

Lemma declared_group_is_bound_witness :
  proxies (fst (fst (UpdateConfig (inl shadowed) [] empty))) !! "AUTO"
  = Some (PURLTest {| ut_name := "AUTO"; ut_members := ["PROXY1"];
                      ut_url := "http://t.example/";
                      ut_interval := 300000000000 |}).
Proof.
  refine (declared_group_is_bound shadowed [] empty
            (fst (fst (UpdateConfig (inl shadowed) [] empty)))
            (snd (fst (UpdateConfig (inl shadowed) [] empty)))
            _ [] _ (key "AUTO" "url-test, PROXY1, http://t.example/, 300") []
            "url-test" [" PROXY1"] " http://t.example/" " 300" _
            _ _ _ eq_refl _ _ _ _ _ _ _).
  - vm_compute. reflexivity.
  - vm_compute. reflexivity.
  - vm_compute. reflexivity.
  - reflexivity.
  - discriminate.
  - vm_compute. reflexivity.
  - vm_compute. reflexivity.
  - constructor.
  - discriminate.
  - discriminate.
Defined.

Lemma reload_error_provenance_witness :
  @inl Config error badCipher = inr "ss: missing cipher"
  \/ (exists cfg k url,
        @inl Config error badCipher = inl cfg /\ k ∈ Keys cfg "Proxy"
        /\ NewShadowSocks (Name k) url tt = inr "ss: missing cipher")
  \/ (exists cfg k ms url interval e',
        @inl Config error badCipher = inl cfg /\ k ∈ Keys cfg "Proxy Group"
        /\ NewURLTest (Name k) ms url interval = inr e'
        /\ "ss: missing cipher" = "Config error: " +:+ e').
Proof.
  refine (reload_error_provenance (inl badCipher) [] empty empty []
            "ss: missing cipher" _).
  vm_compute. reflexivity.
Defined.

Lemma each_group_closed_once_witness :
  exists closes,
    snd (fst (UpdateConfig (inl sample) (map_to_list (proxies loaded)) loaded))
    = [EvLock] ++ closes
        ++ [EvSetProxies
              (proxies (fst (fst (UpdateConfig (inl sample)
                                    (map_to_list (proxies loaded)) loaded))));
            EvSetRules
              (rules (fst (fst (UpdateConfig (inl sample)
                                  (map_to_list (proxies loaded)) loaded))));
            EvUnlock]
    /\ closes ≡ₚ omap closeOf (map_to_list (proxies loaded)).
Proof.
  apply (each_group_closed_once (inl sample)
           (map_to_list (proxies loaded)) loaded
           (fst (fst (UpdateConfig (inl sample)
                        (map_to_list (proxies loaded)) loaded)))).
  - reflexivity.
  - vm_compute. reflexivity.
Defined.

Lemma reserved_names_survive_reloads_witness :
  proxies (reloads ([(inl badCipher, [])] ++ (inl sample, []) :: failing)
             (newTunnel tt)) !! "DIRECT"
    = Some (PDirect tt)
  /\ proxies (reloads ([(inl badCipher, [])] ++ (inl sample, []) :: failing)
                (newTunnel tt)) !! "REJECT"
     = Some (PReject tt)
  /\ is_Some (snd (match_
                     (reloads
                        ([(inl badCipher, [])] ++ (inl sample, []) :: failing)
                        (newTunnel tt))
                     "other.org")).
Proof.
  refine (reserved_names_survive_reloads (newTunnel tt)
            [(inl badCipher, [])] (inl sample) [] failing "other.org" _).
  vm_compute. reflexivity.
Defined.

Lemma new_tunnel_has_no_proxy_witness :
  reloads failing (newTunnel tt) = newTunnel tt
  /\ (forall addr, snd (match_ (reloads failing (newTunnel tt)) addr) = None)
  /\ handleConn online (reloads failing (newTunnel tt)) "www.example.com"
     = ([EvRLock; EvLog (noMatchLog "www.example.com"); EvRUnlock;
         EvLocalClose "www.example.com"],
        Panicked).
Proof.
  refine (new_tunnel_has_no_proxy tt failing online "www.example.com" _).
  repeat constructor; vm_compute; discriminate.
Defined.

Lemma handleConn_returns_witness :
  snd (handleConn online loaded "www.example.com") = Returned.
Proof.
  apply handleConn_returns.
  - vm_compute. eexists. reflexivity.
  - discriminate.
  - reflexivity.
Defined.

Lemma lock_counts_its_holders_witness :
  count reading (snd midSwap) = readers (fst midSwap)
  /\ count writing (snd midSwap) = 1%nat.
Proof.
  destruct (lock_counts_its_holders loaded 2 midSwap Run.midSwap_reachable)
    as (Hr & Hw & _).
  split; [exact Hr | exact Hw].
Defined.

Lemma atRange_reachable : reachable loaded 2 atRange.
Proof.
  unfold reachable, initial. simpl replicate.
  eapply rtc_l.
  { eapply (step_at 0); [reflexivity|].
    apply (M_call (C := constant) _ "www.example.com"). }
  cbn. eapply rtc_l.
  { eapply (step_at 0); [reflexivity|]. apply M_rlock. reflexivity. }
  cbn. apply rtc_refl.
Qed.

Lemma atRange_step : step atRange inLoop.
Proof.
  refine (step_at (C := constant) 0 (fst atRange) (fst atRange)
            (MRange "www.example.com")
            (MLoop "www.example.com" O (rules loaded))
            [MRange "www.example.com"; Idle] eq_refl _).
  apply (M_range (fst atRange)).
Qed.

Lemma tables_fixed_while_reading_witness :
  tun (fst inLoop) = tun (fst atRange).
Proof.
  apply (tables_fixed_while_reading loaded 2 atRange inLoop 0
           (MRange (C := constant) "www.example.com") atRange_reachable).
  - reflexivity.
  - reflexivity.
  - exact atRange_step.
Defined.

Lemma stream_shrinks_with_level_witness :
  delivered (stream (fun _ => None) ERROR events)
    `sublist_of` delivered (stream (fun _ => None) DEBUG events).
Proof.
  apply stream_shrinks_with_level. simpl. lia.
Defined.

Lemma error_responses_carry_no_entries_witness :
  delivered (logsHandler (inl {| Level := "verbose" |}) (inl events) true
               (fun _ => None)) = [].
Proof.
  apply (proj1 (proj2 (proj2 (proj2 (proj2
           (error_responses_carry_no_entries
              (inl {| Level := "verbose" |}) (inl events) true
              (fun _ => None))))) "Invalid log level" 400
           ltac:(vm_compute; left))).
Defined.

End RunExtras.
